(** * Topic matcher of the pub/sub bus

    Shallow embedding of [src/pattern-playground/matcher.js] (the compiled
    [src/topic-matcher.ts]): pattern compilation with its bounded,
    insertion-ordered cache, topic matching, publish-topic validation and
    the split/join helpers.

    JavaScript strings are modelled by [string] (sequences of 8-bit
    characters); the inputs of every exported function are strings, as the
    TypeScript signatures require.  A thrown [Error] is a value of type
    [Error], carried by the [result] type. *)

From Stdlib Require Import String Ascii List Bool Arith PArith Lia.
From Equations Require Import Equations.
Import ListNotations.

Local Open Scope string_scope.
Local Open Scope list_scope.

(** ** The string primitives the source relies on *)

Module JsString.

(** [s.split(sep)] for a one-character separator: the pieces between the
    successive occurrences of [sep]; never the empty array. *)
Fixpoint split (sep : ascii) (s : string) : list string :=
  match s with
  | EmptyString => [EmptyString]
  | String c rest =>
      if Ascii.eqb c sep then EmptyString :: split sep rest
      else match split sep rest with
           | [] => [String c EmptyString]
           | piece :: pieces => String c piece :: pieces
           end
  end.

(** [arr.join(sep)] on an array of strings. *)
Fixpoint join (sep : ascii) (arr : list string) : string :=
  match arr with
  | [] => EmptyString
  | [piece] => piece
  | piece :: pieces => piece ++ String sep (join sep pieces)
  end.

(** [s.includes(c)] for a one-character needle. *)
Fixpoint includes (c : ascii) (s : string) : bool :=
  match s with
  | EmptyString => false
  | String d rest => Ascii.eqb d c || includes c rest
  end.

Fixpoint forallb (p : ascii -> bool) (s : string) : bool :=
  match s with
  | EmptyString => true
  | String c rest => p c && forallb p rest
  end.

Definition between (lo hi c : ascii) : bool :=
  Nat.leb (nat_of_ascii lo) (nat_of_ascii c)
  && Nat.leb (nat_of_ascii c) (nat_of_ascii hi).

(** The character class [[a-zA-Z0-9_-]]. *)
Definition segment_char (c : ascii) : bool :=
  (between "a" "z" c || between "A" "Z" c || between "0" "9" c
   || Ascii.eqb c "_" || Ascii.eqb c "-")%char.

(** [/^[a-zA-Z0-9_-]+$/.test(s)]: one or more characters, all of the class
    (no flag is set, so [$] is the end of the input). *)
Definition segment_regex_test (s : string) : bool :=
  negb (s =? "") && forallb segment_char s.

End JsString.

(** ** An insertion-ordered map (the JavaScript [Map])

    The entries are kept oldest first; [set] on a present key keeps its
    position, [set] on an absent key appends. *)

Module JsMap.
Section WithValue.
Context {V : Type}.

Definition t := list (string * V).

Definition empty : t := [].

Fixpoint get (m : t) (k : string) : option V :=
  match m with
  | [] => None
  | (k', v) :: m' => if k' =? k then Some v else get m' k
  end.

Fixpoint set (m : t) (k : string) (v : V) : t :=
  match m with
  | [] => [(k, v)]
  | (k', v') :: m' => if k' =? k then (k, v) :: m' else (k', v') :: set m' k v
  end.

Fixpoint delete (m : t) (k : string) : t :=
  match m with
  | [] => []
  | (k', v') :: m' => if k' =? k then m' else (k', v') :: delete m' k
  end.

Definition size (m : t) : nat := length m.

Definition keys (m : t) : list string := map fst m.

(** [m.keys().next().value]: the oldest key, [undefined] on an empty map. *)
Definition first_key (m : t) : option string := hd_error (keys m).

(** [m.delete(m.keys().next().value)]; deleting [undefined] removes nothing. *)
Definition delete_first_key (m : t) : t :=
  match first_key m with
  | Some k => delete m k
  | None => m
  end.

Definition clear (m : t) : t := empty.

End WithValue.
Arguments t : clear implicits.
End JsMap.

(** ** The source module *)

Module TopicMatcher.

Definition SEGMENT_DELIMITER : ascii := ".".
Definition SINGLE_WILDCARD : ascii := "+".
Definition MULTI_WILDCARD : ascii := "#".
Definition MAX_CACHE_SIZE : nat := 1000.

(** A compiled segment: the objects [{ type: "multi" }], [{ type: "single" }]
    and [{ type: "literal", value }]. *)
Inductive MatcherSegment : Type :=
| multi
| single
| literal (value : string).

Record Matcher : Type := mkMatcher {
  pattern : string;
  hasWildcards : bool;
  segments : list MatcherSegment
}.

(** The errors thrown, one constructor per message of the source. *)
Inductive Error : Type :=
| InvalidTopicPattern (pattern : string)
| PatternEmptySegment (pattern : string) (position : nat)
| PatternMultiNotAtEnd (pattern : string)
| PatternInvalidCharacters (pattern segment : string)
| InvalidTopic (topic : string)
| TopicHasWildcards (topic : string)
| TopicEmptySegment (topic : string) (position : nat)
| TopicInvalidCharacters (topic segment : string).

Inductive result (A : Type) : Type :=
| Return (a : A)
| Throw (e : Error).
Arguments Return {A} a.
Arguments Throw {A} e.

Definition Cache : Type := JsMap.t Matcher.

Definition splitTopic (topic : string) : list string :=
  JsString.split SEGMENT_DELIMITER topic.

Definition joinTopic (segments : list string) : string :=
  JsString.join SEGMENT_DELIMITER segments.

(** The [for] loop of [compileMatcher] from index [i] on: [rest] holds
    [segments[i..]], [len] is [segments.length]; the accumulators are the
    loop's [matcherSegments] and [hasWildcards]. *)
Fixpoint compileSegments (pattern : string) (len i : nat) (rest : list string)
    (matcherSegments : list MatcherSegment) (hasWildcards : bool)
    : result (list MatcherSegment * bool) :=
  match rest with
  | [] => Return (matcherSegments, hasWildcards)
  | segment :: rest' =>
      if segment =? "" then Throw (PatternEmptySegment pattern i)
      else if segment =? String MULTI_WILDCARD "" then
        if negb (i =? len - 1)%nat then Throw (PatternMultiNotAtEnd pattern)
        else compileSegments pattern len (S i) rest' (matcherSegments ++ [multi]) true
      else if segment =? String SINGLE_WILDCARD "" then
        compileSegments pattern len (S i) rest' (matcherSegments ++ [single]) true
      else if negb (JsString.segment_regex_test segment) then
        Throw (PatternInvalidCharacters pattern segment)
      else
        compileSegments pattern len (S i) rest'
          (matcherSegments ++ [literal segment]) hasWildcards
  end.

(** Lines 12 to 45: validation and construction of a fresh matcher. *)
Definition buildMatcher (pattern : string) : result Matcher :=
  if pattern =? "" then Throw (InvalidTopicPattern pattern)
  else
    let segments := splitTopic pattern in
    match compileSegments pattern (length segments) 0 segments [] false with
    | Throw e => Throw e
    | Return (matcherSegments, hasWildcards) =>
        Return (mkMatcher pattern hasWildcards matcherSegments)
    end.

(** [compileMatcher] with the module-level [matcherCache] passed in and
    out.  A throw leaves the cache as it was. *)
Definition compileMatcher (pattern : string) (matcherCache : Cache)
    : result Matcher * Cache :=
  match JsMap.get matcherCache pattern with
  | Some cached => (Return cached, matcherCache)
  | None =>
      match buildMatcher pattern with
      | Throw e => (Throw e, matcherCache)
      | Return matcher =>
          let matcherCache :=
            if (MAX_CACHE_SIZE <=? JsMap.size matcherCache)%nat
            then JsMap.delete_first_key matcherCache
            else matcherCache in
          (Return matcher, JsMap.set matcherCache pattern matcher)
      end
  end.

Definition clearMatcherCache (matcherCache : Cache) : Cache :=
  JsMap.clear matcherCache.

Definition getMatcherCacheSize (matcherCache : Cache) : nat :=
  JsMap.size matcherCache.

Equations? matchSegments (topicSegments : list string) (topicIndex : nat)
    (patternSegments : list MatcherSegment) (patternIndex : nat) : bool
    by wf (length patternSegments - patternIndex) lt :=
  matchSegments topicSegments topicIndex patternSegments patternIndex with
      le_lt_dec (length patternSegments) patternIndex := {
    | left _ => (length topicSegments <=? topicIndex)%nat
    | right _ =>
        match nth_error patternSegments patternIndex with
        | Some multi => true
        | Some single =>
            if (length topicSegments <=? topicIndex)%nat then false
            else matchSegments topicSegments (topicIndex + 1)
                   patternSegments (patternIndex + 1)
        | Some (literal value) =>
            if (length topicSegments <=? topicIndex)%nat then false
            else if negb (nth topicIndex topicSegments "" =? value) then false
            else matchSegments topicSegments (topicIndex + 1)
                   patternSegments (patternIndex + 1)
        | None => false
        end }.
Proof. all: lia. Qed.

Definition matchTopic (topic : string) (matcher : Matcher) : bool :=
  if negb (hasWildcards matcher) then topic =? pattern matcher
  else
    let topicSegments := splitTopic topic in
    if existsb (fun seg => seg =? "") topicSegments then false
    else matchSegments topicSegments 0 (segments matcher) 0.

(** [validatePublishTopic]'s loop from index [i] on. *)
Fixpoint validateSegments (topic : string) (i : nat) (rest : list string)
    : result unit :=
  match rest with
  | [] => Return tt
  | segment :: rest' =>
      if segment =? "" then Throw (TopicEmptySegment topic i)
      else if negb (JsString.segment_regex_test segment) then
        Throw (TopicInvalidCharacters topic segment)
      else validateSegments topic (S i) rest'
  end.

Definition validatePublishTopic (topic : string) : result unit :=
  if topic =? "" then Throw (InvalidTopic topic)
  else if JsString.includes SINGLE_WILDCARD topic
          || JsString.includes MULTI_WILDCARD topic then
    Throw (TopicHasWildcards topic)
  else validateSegments topic 0 (splitTopic topic).

End TopicMatcher.

Import TopicMatcher.

(** ** The module's reachable states *)

Module Session.

(** The exported operations that touch [matcherCache]. *)
Inductive Op : Type :=
| Compile (pattern : string)
| Clear.

Definition step (matcherCache : Cache) (op : Op) : Cache :=
  match op with
  | Compile pattern => snd (compileMatcher pattern matcherCache)
  | Clear => clearMatcherCache matcherCache
  end.

(** The cache after a sequence of calls. *)
Definition run (ops : list Op) (matcherCache : Cache) : Cache :=
  fold_left step ops matcherCache.

(** A cache is reachable when some sequence of calls produces it from the
    empty [Map] the module starts with. *)
Definition reachable (matcherCache : Cache) : Prop :=
  exists ops, matcherCache = run ops JsMap.empty.

(** What every reachable cache satisfies: keys are unique, every entry is
    the matcher built from its key, and the size is bounded. *)
Definition cache_ok (matcherCache : Cache) : Prop :=
  NoDup (JsMap.keys matcherCache)
  /\ (forall k m, In (k, m) matcherCache -> buildMatcher k = Return m)
  /\ JsMap.size matcherCache <= MAX_CACHE_SIZE.

(** Distinct valid patterns, used to fill a cache: the binary digits of a
    positive number, least significant first. *)
Fixpoint digits (p : positive) : string :=
  match p with
  | xH => "1"
  | xO q => String "0" (digits q)
  | xI q => String "1" (digits q)
  end.

Definition fill (n : nat) : list Op :=
  map (fun k => Compile (digits (Pos.of_nat k))) (seq 1 n).

End Session.

(** ** The notions the specification uses *)

Module Spec.

Definition is_wildcard (s : string) : bool :=
  (s =? String MULTI_WILDCARD "") || (s =? String SINGLE_WILDCARD "").

(** A pattern without wildcard segments. *)
Definition wildcard_free (p : string) : bool :=
  negb (existsb is_wildcard (splitTopic p)).

(** The three ways a pattern is malformed. *)
Definition multi_not_last (segs : list string) : Prop :=
  exists i, nth_error segs i = Some (String MULTI_WILDCARD "")
            /\ S i < length segs.

Definition has_empty_segment (segs : list string) : Prop := In "" segs.

Definition has_invalid_literal (segs : list string) : Prop :=
  exists s, In s segs /\ is_wildcard s = false
            /\ JsString.forallb JsString.segment_char s = false.

Definition malformed (p : string) : Prop :=
  multi_not_last (splitTopic p) \/ has_empty_segment (splitTopic p)
  \/ has_invalid_literal (splitTopic p).

(** The same as a check: every segment is non-empty and is a
    multi-wildcard in last position, a single wildcard, or made of
    [[A-Za-z0-9_-]] only. *)
Definition legal_segment (last : bool) (s : string) : bool :=
  negb (s =? "")
  && (if s =? String MULTI_WILDCARD "" then last
      else (s =? String SINGLE_WILDCARD "") || JsString.segment_regex_test s).

Fixpoint legal_segments (segs : list string) : bool :=
  match segs with
  | [] => true
  | s :: rest =>
      legal_segment (match rest with [] => true | _ => false end) s
      && legal_segments rest
  end.

Definition valid_pattern (p : string) : bool := legal_segments (splitTopic p).

(** The compiled form of one legal segment. *)
Definition segment_of (s : string) : MatcherSegment :=
  if s =? String MULTI_WILDCARD "" then multi
  else if s =? String SINGLE_WILDCARD "" then single
  else literal s.

(** The matcher of a valid pattern. *)
Definition compiled (p : string) : Matcher :=
  mkMatcher p (existsb is_wildcard (splitTopic p))
            (map segment_of (splitTopic p)).

(** Matching, declaratively: what a list of compiled segments accepts. *)
Inductive Matches : list MatcherSegment -> list string -> Prop :=
| Matches_end : Matches [] []
| Matches_multi ps ts : Matches (multi :: ps) ts
| Matches_single ps t ts : Matches ps ts -> Matches (single :: ps) (t :: ts)
| Matches_literal value ps ts :
    Matches ps ts -> Matches (literal value :: ps) (value :: ts).

(** A concrete topic: one or more segments, each matching
    [[A-Za-z0-9_-]+], joined by the delimiter. *)
Definition concrete_topic (t : string) : Prop :=
  exists segs, segs <> []
               /\ Forall (fun s => JsString.segment_regex_test s = true) segs
               /\ t = joinTopic segs.

(** A topic with a leading, trailing or doubled delimiter. *)
Fixpoint doubled_delimiter (t : string) : bool :=
  match t with
  | String c (String d _ as rest) =>
      (Ascii.eqb c SEGMENT_DELIMITER && Ascii.eqb d SEGMENT_DELIMITER)
      || doubled_delimiter rest
  | _ => false
  end.

Definition leading_delimiter (t : string) : bool :=
  match t with
  | String c _ => Ascii.eqb c SEGMENT_DELIMITER
  | EmptyString => false
  end.

Fixpoint trailing_delimiter (t : string) : bool :=
  match t with
  | EmptyString => false
  | String c EmptyString => Ascii.eqb c SEGMENT_DELIMITER
  | String _ rest => trailing_delimiter rest
  end.

End Spec.

(** ** Notions used by the further properties *)

Module Render.

(** [getCache]: the module hands out its [Map] itself. *)
Definition getCache (matcherCache : Cache) : Cache := matcherCache.

(** The text a compiled segment was compiled from. *)
Definition segment_string (seg : MatcherSegment) : string :=
  match seg with
  | multi => String MULTI_WILDCARD ""
  | single => String SINGLE_WILDCARD ""
  | literal value => value
  end.

(** The pattern text of a list of compiled segments. *)
Definition render (segs : list MatcherSegment) : string :=
  joinTopic (map segment_string segs).

(** Number of occurrences of a character in a string. *)
Fixpoint count_char (c : ascii) (s : string) : nat :=
  match s with
  | EmptyString => 0
  | String d rest => (if Ascii.eqb d c then 1 else 0) + count_char c rest
  end.

(** The index of the first element that fails a test. *)
Fixpoint first_failing {A : Type} (ok : A -> bool) (l : list A) : option nat :=
  match l with
  | [] => None
  | x :: rest =>
      if ok x then option_map S (first_failing ok rest) else Some 0
  end.

(** Compiled segments that a valid pattern can produce: a multi-wildcard
    only in last position, literals matching [[A-Za-z0-9_-]+]. *)
Fixpoint well_formed_segments (segs : list MatcherSegment) : bool :=
  match segs with
  | [] => true
  | seg :: rest =>
      match seg with
      | multi => match rest with [] => true | _ => false end
      | single => true
      | literal value => JsString.segment_regex_test value
      end && well_formed_segments rest
  end.

Definition is_wildcard_segment (seg : MatcherSegment) : bool :=
  match seg with
  | literal _ => false
  | _ => true
  end.

(** The cache entry of a valid pattern. *)
Definition entry (p : string) : string * Matcher := (p, Spec.compiled p).

(** A sequence of [compileMatcher] calls. *)
Definition compile_all (patterns : list string) : list Session.Op :=
  map Session.Compile patterns.

End Render.

Import Session Spec Render.

(** * Properties *)

(** ** Strings: split and join *)

Section SplitJoin.
Variable sep : ascii.

Lemma split_not_nil (s : string) : JsString.split sep s <> [].
Proof.
  destruct s as [|c s]; simpl; [discriminate|].
  destruct (Ascii.eqb c sep); [discriminate|].
  destruct (JsString.split sep s); discriminate.
Qed.

Lemma join_cons (piece : string) (pieces : list string) :
  pieces <> [] ->
  JsString.join sep (piece :: pieces)
  = (piece ++ String sep (JsString.join sep pieces))%string.
Proof. destruct pieces; [congruence | reflexivity]. Qed.

Lemma join_split (s : string) : JsString.join sep (JsString.split sep s) = s.
Proof.
  induction s as [|c s IH]; [reflexivity|].
  simpl JsString.split.
  destruct (Ascii.eqb_spec c sep) as [->|Hne].
  - rewrite join_cons by apply split_not_nil. simpl. now rewrite IH.
  - pose proof (split_not_nil s) as Hnil.
    destruct (JsString.split sep s) as [|piece pieces]; [congruence|].
    rewrite <- IH. destruct pieces as [|piece' pieces]; reflexivity.
Qed.

Lemma includes_false_iff (c : ascii) (s : string) :
  JsString.includes c s = false
  <-> JsString.forallb (fun d => negb (Ascii.eqb d c)) s = true.
Proof.
  induction s as [|d s IH]; simpl; [tauto|].
  rewrite orb_false_iff, andb_true_iff, negb_true_iff. tauto.
Qed.

Lemma split_no_sep (s : string) :
  JsString.includes sep s = false -> JsString.split sep s = [s].
Proof.
  induction s as [|c s IH]; simpl; [reflexivity|].
  intros [Hc Hs]%orb_false_iff. rewrite Hc, (IH Hs). reflexivity.
Qed.

Lemma split_app_sep (piece rest : string) :
  JsString.includes sep piece = false ->
  JsString.split sep (piece ++ String sep rest)%string
  = piece :: JsString.split sep rest.
Proof.
  induction piece as [|c piece IH]; simpl.
  - intros _. now rewrite Ascii.eqb_refl.
  - intros [Hc Hs]%orb_false_iff. rewrite Hc, (IH Hs). reflexivity.
Qed.

Lemma split_join (pieces : list string) :
  pieces <> [] ->
  Forall (fun piece => JsString.includes sep piece = false) pieces ->
  JsString.split sep (JsString.join sep pieces) = pieces.
Proof.
  induction pieces as [|piece pieces IH]; [congruence|].
  intros _ Hall. inversion Hall as [|? ? Hpiece Hrest]; subst.
  destruct pieces as [|piece' pieces].
  - simpl. now apply split_no_sep.
  - rewrite join_cons by discriminate.
    rewrite split_app_sep by assumption.
    f_equal. apply IH; [discriminate | assumption].
Qed.

Lemma split_pieces_no_sep (s : string) :
  Forall (fun piece => JsString.includes sep piece = false)
         (JsString.split sep s).
Proof.
  induction s as [|c s IH]; simpl; [repeat constructor|].
  destruct (Ascii.eqb c sep) eqn:Hc; [constructor; [reflexivity | exact IH]|].
  destruct (JsString.split sep s) as [|piece pieces]; [repeat constructor; simpl; now rewrite Hc|].
  inversion IH; subst. constructor; [simpl; now rewrite Hc | assumption].
Qed.

End SplitJoin.

(** ** The character class *)

Lemma segment_char_not_special (c : ascii) :
  JsString.segment_char c = true ->
  c <> SEGMENT_DELIMITER /\ c <> SINGLE_WILDCARD /\ c <> MULTI_WILDCARD.
Proof.
  intros Hc. repeat split; intros ->; vm_compute in Hc; discriminate.
Qed.

Lemma forallb_impl (p q : ascii -> bool) (s : string) :
  (forall c, p c = true -> q c = true) ->
  JsString.forallb p s = true -> JsString.forallb q s = true.
Proof.
  intros Hpq. induction s as [|c s IH]; simpl; [trivial|].
  intros [Hc Hs]%andb_true_iff. now rewrite (Hpq c Hc), (IH Hs).
Qed.

Lemma regex_test_excludes (d : ascii) (s : string) :
  JsString.segment_char d = false ->
  JsString.segment_regex_test s = true -> JsString.includes d s = false.
Proof.
  intros Hd [_ Hs]%andb_true_iff. apply includes_false_iff.
  revert Hs. apply forallb_impl. intros c Hc.
  destruct (Ascii.eqb_spec c d) as [->|]; [congruence | reflexivity].
Qed.

Lemma regex_test_not_wildcard (s : string) :
  JsString.segment_regex_test s = true -> is_wildcard s = false.
Proof.
  intros Hs. unfold is_wildcard.
  destruct (String.eqb_spec s (String MULTI_WILDCARD "")) as [->|];
    [discriminate Hs|].
  destruct (String.eqb_spec s (String SINGLE_WILDCARD "")) as [->|];
    [discriminate Hs | reflexivity].
Qed.

Lemma regex_test_iff (s : string) :
  JsString.segment_regex_test s = true
  <-> s <> "" /\ JsString.forallb JsString.segment_char s = true.
Proof.
  unfold JsString.segment_regex_test.
  rewrite andb_true_iff, negb_true_iff, String.eqb_neq. tauto.
Qed.

Lemma includes_join (c : ascii) (segs : list string) :
  c <> SEGMENT_DELIMITER ->
  JsString.includes c (joinTopic segs) = existsb (JsString.includes c) segs.
Proof.
  intros Hc. unfold joinTopic.
  assert (Happ : forall a b, JsString.includes c (a ++ b)%string
                 = JsString.includes c a || JsString.includes c b).
  { induction a as [|d a IH]; intros b; simpl; [reflexivity|].
    now rewrite IH, orb_assoc. }
  induction segs as [|s segs IH]; [reflexivity|].
  destruct segs as [|s' segs]; [simpl; now rewrite orb_false_r|].
  rewrite join_cons by discriminate. rewrite Happ.
  change (existsb (JsString.includes c) (s :: s' :: segs))
    with (JsString.includes c s || existsb (JsString.includes c) (s' :: segs)).
  rewrite <- IH. f_equal.
  change (JsString.includes c (String SEGMENT_DELIMITER ?r))
    with (Ascii.eqb SEGMENT_DELIMITER c || JsString.includes c r).
  destruct (Ascii.eqb_spec SEGMENT_DELIMITER c); [congruence | reflexivity].
Qed.

(** ** The insertion-ordered map *)

Section MapFacts.
Context {V : Type}.
Implicit Types (m : JsMap.t V) (k : string) (v : V).

Lemma get_In m k v : JsMap.get m k = Some v -> In (k, v) m.
Proof.
  induction m as [|[k' v'] m IH]; simpl; [discriminate|].
  destruct (String.eqb_spec k' k) as [->|_].
  - intros [= ->]. now left.
  - intros H. right. now apply IH.
Qed.

Lemma get_None_keys m k : JsMap.get m k = None <-> ~ In k (JsMap.keys m).
Proof.
  induction m as [|[k' v'] m IH]; simpl; [tauto|].
  destruct (String.eqb_spec k' k) as [->|Hne].
  - split; [discriminate | intros H; exfalso; apply H; now left].
  - rewrite IH. split; [intros H [?|?]; congruence | tauto].
Qed.

Lemma get_set_same m k v : JsMap.get (JsMap.set m k v) k = Some v.
Proof.
  induction m as [|[k' v'] m IH]; simpl.
  - now rewrite String.eqb_refl.
  - destruct (k' =? k) eqn:Hk; simpl.
    + now rewrite String.eqb_refl.
    + now rewrite Hk.
Qed.

(** On an absent key, [set] appends: the new entry is the youngest. *)
Lemma set_absent m k v :
  JsMap.get m k = None -> JsMap.set m k v = m ++ [(k, v)].
Proof.
  induction m as [|[k' v'] m IH]; simpl; [reflexivity|].
  destruct (k' =? k); [discriminate|]. intros H. now rewrite IH.
Qed.

(** Deleting the oldest key drops the head entry and nothing else. *)
Lemma delete_first_key_tl m : JsMap.delete_first_key m = tl m.
Proof.
  destruct m as [|[k v] m]; [reflexivity|].
  unfold JsMap.delete_first_key. simpl. now rewrite String.eqb_refl.
Qed.

Lemma get_tl_None m k : JsMap.get m k = None -> JsMap.get (tl m) k = None.
Proof.
  destruct m as [|[k' v'] m]; simpl; [trivial|].
  destruct (k' =? k); [discriminate | trivial].
Qed.

End MapFacts.

(** ** Pattern legality *)

Lemma legal_segment_cases (last : bool) (s : string) :
  legal_segment last s = true
  <-> s <> "" /\ ((s = String MULTI_WILDCARD "" /\ last = true)
                  \/ s = String SINGLE_WILDCARD ""
                  \/ (is_wildcard s = false
                      /\ JsString.forallb JsString.segment_char s = true)).
Proof.
  unfold legal_segment, is_wildcard.
  rewrite andb_true_iff, negb_true_iff, String.eqb_neq.
  destruct (String.eqb_spec s (String MULTI_WILDCARD "")) as [->|Hm].
  - intuition (try discriminate).
  - destruct (String.eqb_spec s (String SINGLE_WILDCARD "")) as [->|Hs].
    + intuition (try discriminate).
    + simpl. rewrite regex_test_iff. intuition (try discriminate).
Qed.

Lemma legal_segments_sound (segs : list string) :
  legal_segments segs = true ->
  ~ multi_not_last segs /\ ~ has_empty_segment segs
  /\ ~ has_invalid_literal segs.
Proof.
  induction segs as [|s rest IH]; simpl.
  - intros _. repeat split.
    + intros [i [Hi _]]. now destruct i.
    + intros [].
    + intros [x [[] _]].
  - intros [Hs Hrest]%andb_true_iff.
    apply legal_segment_cases in Hs as [Hne Hs].
    destruct (IH Hrest) as (IHm & IHe & IHl). repeat split.
    + intros [[|i] [Hi Hlen]]; simpl in *.
      * injection Hi as ->.
        destruct Hs as [[_ Hlast]|[Hs|[Hs _]]]; try discriminate.
        destruct rest; [simpl in Hlen; lia | discriminate].
      * apply IHm. exists i. split; [assumption | lia].
    + intros [Heq|Hin]; [congruence | now apply IHe].
    + intros [x [[<-|Hin] [Hw Hx]]].
      * destruct Hs as [[-> _]|[->|[_ Hs]]]; try discriminate. congruence.
      * apply IHl. now exists x.
Qed.

Lemma legal_segments_complete (segs : list string) :
  legal_segments segs = false ->
  multi_not_last segs \/ has_empty_segment segs \/ has_invalid_literal segs.
Proof.
  induction segs as [|s rest IH]; simpl; [discriminate|].
  intros [Hs|Hrest]%andb_false_iff.
  - unfold legal_segment in Hs.
    destruct (String.eqb_spec s "") as [->|Hne]; [right; left; now left|].
    simpl in Hs.
    destruct (String.eqb_spec s (String MULTI_WILDCARD "")) as [->|Hm].
    + left. exists 0. split; [reflexivity|].
      destruct rest; [discriminate | simpl; lia].
    + destruct (String.eqb_spec s (String SINGLE_WILDCARD "")) as [->|Hsg];
        [discriminate|].
      right; right. exists s. split; [now left|]. split.
      * unfold is_wildcard.
        destruct (String.eqb_spec s (String MULTI_WILDCARD "")); [congruence|].
        destruct (String.eqb_spec s (String SINGLE_WILDCARD ""));
          [congruence | reflexivity].
      * simpl in Hs. unfold JsString.segment_regex_test in Hs.
        destruct (String.eqb_spec s ""); [congruence | exact Hs].
  - destruct (IH Hrest) as [[i [Hi Hlen]]|[He|[x [Hin Hx]]]].
    + left. exists (S i). split; [exact Hi | simpl; lia].
    + right; left. now right.
    + right; right. exists x. split; [now right | exact Hx].
Qed.

Lemma valid_pattern_iff (p : string) :
  valid_pattern p = true <-> ~ malformed p.
Proof.
  unfold valid_pattern, malformed. split.
  - intros H. apply legal_segments_sound in H. tauto.
  - intros H. destruct (legal_segments (splitTopic p)) eqn:E; [reflexivity|].
    exfalso. apply H. now apply legal_segments_complete.
Qed.

(** ** The compilation loop *)

Lemma compileSegments_legal (pattern : string) (rest : list string) :
  forall len i acc hw,
    len = i + length rest ->
    legal_segments rest = true ->
    compileSegments pattern len i rest acc hw
    = Return (acc ++ map segment_of rest, hw || existsb is_wildcard rest).
Proof.
  induction rest as [|s rest IH]; intros len i acc hw Hlen; simpl.
  - intros _. now rewrite app_nil_r, orb_false_r.
  - intros [Hs Hrest]%andb_true_iff. unfold legal_segment in Hs.
    unfold segment_of, is_wildcard.
    destruct (s =? "") eqn:He; [discriminate|]. simpl in Hs.
    destruct (s =? String MULTI_WILDCARD "") eqn:Hm.
    + destruct rest; [|discriminate].
      replace (Nat.eqb i (len - 1)) with true
        by (symmetry; apply Nat.eqb_eq; simpl in Hlen; lia).
      simpl. now rewrite orb_true_r.
    + destruct (s =? String SINGLE_WILDCARD "") eqn:Hsg.
      * rewrite (IH len (S i)) by (simpl in Hlen; lia || assumption).
        rewrite <- app_assoc. simpl. now rewrite orb_true_r.
      * simpl in Hs. rewrite Hs. simpl.
        rewrite (IH len (S i)) by (simpl in Hlen; lia || assumption).
        now rewrite <- app_assoc.
Qed.

Lemma compileSegments_illegal (pattern : string) (rest : list string) :
  forall len i acc hw,
    len = i + length rest ->
    legal_segments rest = false ->
    exists e, compileSegments pattern len i rest acc hw = Throw e.
Proof.
  induction rest as [|s rest IH]; intros len i acc hw Hlen; simpl;
    [discriminate|].
  intros Hill. unfold legal_segment in Hill.
  destruct (s =? "") eqn:He; [eauto|]. simpl in Hill.
  destruct (s =? String MULTI_WILDCARD "") eqn:Hm.
  - destruct rest as [|s' rest]; [discriminate Hill|].
    replace (Nat.eqb i (len - 1)) with false
      by (symmetry; apply Nat.eqb_neq; simpl in Hlen; lia).
    simpl. eauto.
  - destruct (s =? String SINGLE_WILDCARD "") eqn:Hsg; simpl in Hill.
    + apply IH; [simpl in Hlen; lia | assumption].
    + destruct (JsString.segment_regex_test s); simpl in *; [|eauto].
      apply IH; [lia | assumption].
Qed.

Lemma buildMatcher_valid (p : string) :
  valid_pattern p = true -> buildMatcher p = Return (compiled p).
Proof.
  unfold valid_pattern, buildMatcher. intros Hv.
  destruct (String.eqb_spec p "") as [->|_]; [discriminate Hv|].
  cbv zeta.
  now rewrite (compileSegments_legal p (splitTopic p)
                 (length (splitTopic p)) 0 [] false eq_refl Hv).
Qed.

Lemma buildMatcher_invalid (p : string) :
  valid_pattern p = false -> exists e, buildMatcher p = Throw e.
Proof.
  unfold valid_pattern, buildMatcher. intros Hv.
  destruct (p =? ""); [eauto|].
  cbv zeta.
  destruct (compileSegments_illegal p (splitTopic p)
              (length (splitTopic p)) 0 [] false eq_refl Hv) as [e ->].
  eauto.
Qed.

Lemma buildMatcher_Return (p : string) (m : Matcher) :
  buildMatcher p = Return m -> valid_pattern p = true /\ m = compiled p.
Proof.
  intros H. destruct (valid_pattern p) eqn:Hv.
  - rewrite (buildMatcher_valid p Hv) in H. now injection H as <-.
  - destruct (buildMatcher_invalid p Hv) as [e He]. congruence.
Qed.

(** ** The cache *)

Lemma compileMatcher_hit (p : string) (c : Cache) (cached : Matcher) :
  JsMap.get c p = Some cached -> compileMatcher p c = (Return cached, c).
Proof. unfold compileMatcher. now intros ->. Qed.

Lemma compileMatcher_throw (p : string) (c : Cache) (e : Error) :
  JsMap.get c p = None -> buildMatcher p = Throw e ->
  compileMatcher p c = (Throw e, c).
Proof. unfold compileMatcher. now intros -> ->. Qed.

Lemma compileMatcher_miss (p : string) (c : Cache) (m : Matcher) :
  JsMap.get c p = None -> buildMatcher p = Return m ->
  compileMatcher p c
  = (Return m,
     (if (MAX_CACHE_SIZE <=? JsMap.size c)%nat then tl c else c) ++ [(p, m)]).
Proof.
  unfold compileMatcher. intros Hget ->. rewrite Hget. f_equal.
  rewrite delete_first_key_tl. apply set_absent.
  destruct (MAX_CACHE_SIZE <=? JsMap.size c)%nat; [now apply get_tl_None | exact Hget].
Qed.

Lemma cache_ok_empty : cache_ok JsMap.empty.
Proof.
  repeat split; [constructor | intros k m [] | unfold MAX_CACHE_SIZE; simpl; lia].
Qed.

Lemma cache_ok_append (c : Cache) (p : string) (m : Matcher) :
  cache_ok c -> JsMap.get c p = None -> buildMatcher p = Return m ->
  JsMap.size c < MAX_CACHE_SIZE -> cache_ok (c ++ [(p, m)]).
Proof.
  intros (Hnd & Hent & Hsz) Hget Hb Hlt. repeat split.
  - unfold JsMap.keys. rewrite map_app. simpl.
    apply NoDup_app; [exact Hnd | repeat constructor; intros [] |].
    intros k Hk [<-|[]]. now apply get_None_keys in Hget.
  - intros k m' [Hin|[[= <- <-]|[]]]%in_app_or; [now apply Hent | exact Hb].
  - unfold JsMap.size in *. rewrite length_app. simpl. lia.
Qed.

Lemma cache_ok_tl (c : Cache) : cache_ok c -> cache_ok (tl c).
Proof.
  intros (Hnd & Hent & Hsz). destruct c as [|[k v] c]; [now repeat split|].
  simpl in *. repeat split.
  - now inversion Hnd.
  - intros k' m' Hin. apply Hent. now right.
  - unfold JsMap.size in *. simpl in Hsz. lia.
Qed.

Lemma cache_ok_compile (p : string) (c : Cache) :
  cache_ok c -> cache_ok (snd (compileMatcher p c)).
Proof.
  intros Hok. destruct (JsMap.get c p) as [cached|] eqn:Hget.
  - now rewrite (compileMatcher_hit p c cached Hget).
  - destruct (buildMatcher p) as [m|e] eqn:Hb.
    + rewrite (compileMatcher_miss p c m Hget Hb). cbn [snd].
      destruct (Nat.leb_spec MAX_CACHE_SIZE (JsMap.size c)) as [Hfull|Hroom].
      * apply cache_ok_append;
          [now apply cache_ok_tl | now apply get_tl_None | exact Hb |].
        destruct Hok as (_ & _ & Hsz). destruct c; unfold JsMap.size in *;
          simpl in *; [unfold MAX_CACHE_SIZE in *; lia | lia].
      * now apply cache_ok_append.
    + now rewrite (compileMatcher_throw p c e Hget Hb).
Qed.

Lemma cache_ok_run (ops : list Op) :
  forall c, cache_ok c -> cache_ok (run ops c).
Proof.
  induction ops as [|op ops IH]; intros c Hok; [exact Hok|].
  apply IH. destruct op; [now apply cache_ok_compile | apply cache_ok_empty].
Qed.

Lemma reachable_cache_ok (c : Cache) : reachable c -> cache_ok c.
Proof. intros [ops ->]. apply cache_ok_run, cache_ok_empty. Qed.

(** On a reachable cache a call behaves as a fresh compilation does. *)
Lemma compileMatcher_result (p : string) (c : Cache) :
  cache_ok c -> fst (compileMatcher p c) = buildMatcher p.
Proof.
  intros (_ & Hent & _). destruct (JsMap.get c p) as [cached|] eqn:Hget.
  - rewrite (compileMatcher_hit p c cached Hget). simpl.
    symmetry. now apply Hent, get_In.
  - destruct (buildMatcher p) as [m|e] eqn:Hb.
    + now rewrite (compileMatcher_miss p c m Hget Hb).
    + now rewrite (compileMatcher_throw p c e Hget Hb).
Qed.

(** ** Matching, one step at a time *)

(** [matchSegments] satisfies the equation its source text reads as. *)
Lemma matchSegments_eq (ts : list string) (ti : nat)
    (ps : list MatcherSegment) (pi : nat) :
  matchSegments ts ti ps pi
  = if (length ps <=? pi)%nat then (length ts <=? ti)%nat
    else match nth_error ps pi with
         | Some multi => true
         | Some single =>
             if (length ts <=? ti)%nat then false
             else matchSegments ts (ti + 1) ps (pi + 1)
         | Some (literal value) =>
             if (length ts <=? ti)%nat then false
             else if negb (nth ti ts "" =? value)%string then false
             else matchSegments ts (ti + 1) ps (pi + 1)
         | None => false
         end.
Proof.
  rewrite matchSegments_equation_1.
  destruct (le_lt_dec (length ps) pi) as [Hle|Hlt].
  - now rewrite (proj2 (Nat.leb_le _ _) Hle).
  - rewrite (proj2 (Nat.leb_gt _ _) Hlt).
    now rewrite matchSegments_clause_1_equation_2.
Qed.

Lemma skipn_nth_error {A : Type} (l : list A) :
  forall i x, nth_error l i = Some x -> skipn i l = x :: skipn (S i) l.
Proof.
  induction l as [|y l IH]; intros [|i] x; simpl; try discriminate.
  - now intros [= ->].
  - apply IH.
Qed.

Lemma skipn_nth (l : list string) :
  forall i, i < length l -> skipn i l = nth i l "" :: skipn (S i) l.
Proof.
  induction l as [|y l IH]; intros [|i]; simpl; try lia; [reflexivity|].
  intros H. apply IH. lia.
Qed.

(** The cursor-based matcher accepts exactly what [Matches] relates, on
    the segments that remain from both cursors on. *)
Lemma matchSegments_Matches (ts : list string) (ps : list MatcherSegment) :
  forall n pi ti,
    length ps - pi = n ->
    matchSegments ts ti ps pi = true <-> Matches (skipn pi ps) (skipn ti ts).
Proof.
  induction n as [n IH] using lt_wf_ind. intros pi ti Hn.
  rewrite matchSegments_eq.
  destruct (Nat.leb_spec (length ps) pi) as [Hend|Hin].
  - rewrite (skipn_all2 ps Hend), Nat.leb_le. split.
    + intros Hts. rewrite (skipn_all2 ts Hts). constructor.
    + intros H. assert (Hnil : skipn ti ts = []) by now inversion H.
      pose proof (length_skipn ti ts) as Hlen. rewrite Hnil in Hlen.
      simpl in Hlen. lia.
  - destruct (nth_error ps pi) as [seg|] eqn:Hseg;
      [|apply nth_error_None in Hseg; lia].
    rewrite (skipn_nth_error ps pi seg Hseg).
    assert (Hrec : forall ti', matchSegments ts ti' ps (pi + 1) = true
                     <-> Matches (skipn (S pi) ps) (skipn ti' ts)).
    { intros ti'. rewrite Nat.add_1_r.
      apply (IH (length ps - S pi)); [lia | reflexivity]. }
    destruct seg as [| |value].
    + split; [constructor | reflexivity].
    + destruct (Nat.leb_spec (length ts) ti) as [Hts|Hts].
      * rewrite (skipn_all2 ts Hts). split; [discriminate | intros H; inversion H].
      * rewrite (skipn_nth ts ti Hts), Hrec, Nat.add_1_r. split.
        -- now constructor.
        -- intros H. now inversion H.
    + destruct (Nat.leb_spec (length ts) ti) as [Hts|Hts].
      * rewrite (skipn_all2 ts Hts). split; [discriminate | intros H; inversion H].
      * rewrite (skipn_nth ts ti Hts).
        destruct (String.eqb_spec (nth ti ts "") value) as [->|Hne]; cbn [negb].
        -- rewrite Hrec, Nat.add_1_r. split.
           ++ now constructor.
           ++ intros H. now inversion H.
        -- split; [discriminate | intros H; inversion H; congruence].
Qed.

Lemma nth_error_in_range {A : Type} (l : list A) (i : nat) (x : A) :
  nth_error l i = Some x -> (length l <=? i)%nat = false.
Proof.
  intros H. apply Nat.leb_gt, nth_error_Some. congruence.
Qed.

(** ** Compilation and matching *)

(** C1. Exact-match consistency: on any reachable cache, compiling a valid
    pattern [p] without wildcard segments returns a matcher [m] for which
    [matchTopic t m] is the string equality of [t] and [p], for every
    topic string [t]. *)
Theorem exact_match_consistency (c : Cache) (p t : string) :
  reachable c -> valid_pattern p = true -> wildcard_free p = true ->
  exists m, fst (compileMatcher p c) = Return m
            /\ matchTopic t m = (t =? p)
            /\ (matchTopic t m = true <-> t = p).
Proof.
  intros Hc Hv Hw. exists (compiled p).
  rewrite compileMatcher_result by now apply reachable_cache_ok.
  split; [now apply buildMatcher_valid|].
  assert (Hm : matchTopic t (compiled p) = (t =? p)).
  { unfold matchTopic, compiled, wildcard_free in *. simpl.
    apply negb_true_iff in Hw. now rewrite Hw. }
  split; [exact Hm|]. rewrite Hm. apply String.eqb_eq.
Qed.

Lemma exact_match_consistency_witness :
  exists m,
    fst (compileMatcher "cart.item" (run [Compile "cart.#"; Compile "a.b"] []))
    = Return m
    /\ matchTopic "cart.item" m = ("cart.item" =? "cart.item")
    /\ (matchTopic "cart.item" m = true <-> "cart.item" = "cart.item").
Proof.
  apply (exact_match_consistency
           (run [Compile "cart.#"; Compile "a.b"] []) "cart.item" "cart.item").
  - exists [Compile "cart.#"; Compile "a.b"]. reflexivity.
  - reflexivity.
  - reflexivity.
Defined.

(** C2. Multi-wildcard breadth: when the pattern segment under the cursor
    is a multi-wildcard, [matchSegments] returns true whatever the topic
    segments and the topic cursor are; and on any reachable cache the
    matcher of ["a.#"] accepts ["a"] and ["a.b.c.d"] and rejects ["x.y"]. *)
Theorem multi_wildcard_breadth :
  (forall ts ti ps pi,
      nth_error ps pi = Some multi -> matchSegments ts ti ps pi = true)
  /\ (forall c, reachable c ->
        exists m, fst (compileMatcher "a.#" c) = Return m
                  /\ matchTopic "a" m = true
                  /\ matchTopic "a.b.c.d" m = true
                  /\ matchTopic "x.y" m = false).
Proof.
  split.
  - intros ts ti ps pi Hp. rewrite matchSegments_eq.
    now rewrite (nth_error_in_range _ _ _ Hp), Hp.
  - intros c Hc. exists (compiled "a.#").
    rewrite compileMatcher_result by now apply reachable_cache_ok.
    repeat split; reflexivity.
Qed.

Lemma multi_wildcard_breadth_witness :
  matchSegments ["a"; "b"; "c"] 1 [literal "a"; multi] 1 = true
  /\ matchSegments ["a"] 1 [literal "a"; multi] 1 = true
  /\ exists m, fst (compileMatcher "a.#" (run [Compile "a.+"; Clear] []))
               = Return m
               /\ matchTopic "a" m = true
               /\ matchTopic "a.b.c.d" m = true
               /\ matchTopic "x.y" m = false.
Proof.
  destruct multi_wildcard_breadth as [Hseg Hex]. split; [|split].
  - apply (Hseg ["a"; "b"; "c"] 1 [literal "a"; multi] 1). reflexivity.
  - apply (Hseg ["a"] 1 [literal "a"; multi] 1). reflexivity.
  - apply (Hex (run [Compile "a.+"; Clear] [])).
    exists [Compile "a.+"; Clear]. reflexivity.
Defined.

(** C3. Pattern legality: on any reachable cache, [compileMatcher] throws
    for every malformed pattern (a multi-wildcard segment that is not the
    last one, an empty segment, or a literal segment with a character
    outside [[A-Za-z0-9_-]]) and returns a matcher for every valid one. *)
Theorem pattern_legality (c : Cache) (p : string) :
  reachable c ->
  (multi_not_last (splitTopic p) ->
     exists e, fst (compileMatcher p c) = Throw e)
  /\ (has_empty_segment (splitTopic p) ->
        exists e, fst (compileMatcher p c) = Throw e)
  /\ (has_invalid_literal (splitTopic p) ->
        exists e, fst (compileMatcher p c) = Throw e)
  /\ (valid_pattern p = true ->
        exists m, fst (compileMatcher p c) = Return m)
  /\ (valid_pattern p = true <-> ~ malformed p).
Proof.
  intros Hc. rewrite compileMatcher_result by now apply reachable_cache_ok.
  assert (Hbad : malformed p -> exists e, buildMatcher p = Throw e).
  { intros Hbad. apply buildMatcher_invalid.
    destruct (valid_pattern p) eqn:Hv; [|reflexivity].
    now apply valid_pattern_iff in Hv. }
  unfold malformed in Hbad. repeat split.
  - intros H. apply Hbad. now left.
  - intros H. apply Hbad. right. now left.
  - intros H. apply Hbad. right. now right.
  - intros Hv. exists (compiled p). now apply buildMatcher_valid.
  - apply valid_pattern_iff.
  - apply valid_pattern_iff.
Qed.

Lemma pattern_legality_witness :
  (exists e, fst (compileMatcher "a.#.b" (run [Compile "a.#"] [])) = Throw e)
  /\ (exists e, fst (compileMatcher "a..b" (run [Compile "a.#"] [])) = Throw e)
  /\ (exists e, fst (compileMatcher "a.b c" (run [Compile "a.#"] [])) = Throw e)
  /\ (exists m, fst (compileMatcher "a.+.#" (run [Compile "a.#"] [])) = Return m).
Proof.
  assert (Hc : reachable (run [Compile "a.#"] []))
    by (exists [Compile "a.#"]; reflexivity).
  split; [|split; [|split]].
  - destruct (pattern_legality _ "a.#.b" Hc) as (Hmulti & _).
    apply Hmulti. exists 1. split; [reflexivity | simpl; lia].
  - destruct (pattern_legality _ "a..b" Hc) as (_ & Hempty & _).
    apply Hempty. right. now left.
  - destruct (pattern_legality _ "a.b c" Hc) as (_ & _ & Hliteral & _).
    apply Hliteral.
    exists "b c". split; [right; now left | split; reflexivity].
  - destruct (pattern_legality _ "a.+.#" Hc) as (_ & _ & _ & Hvalid & _).
    apply Hvalid. reflexivity.
Defined.

(** C5. Single-wildcard arity: when the pattern segment under the cursor is
    a single wildcard, [matchSegments] fails if no topic segment remains
    and otherwise continues with both cursors advanced by one; on any
    reachable cache the matcher of ["a.+.c"] accepts ["a.b.c"] and rejects
    ["a.b.d.c"]. *)
Theorem single_wildcard_arity :
  (forall ts ti ps pi,
      nth_error ps pi = Some single ->
      (length ts <= ti -> matchSegments ts ti ps pi = false)
      /\ (ti < length ts ->
          matchSegments ts ti ps pi = matchSegments ts (ti + 1) ps (pi + 1)))
  /\ (forall c, reachable c ->
        exists m, fst (compileMatcher "a.+.c" c) = Return m
                  /\ matchTopic "a.b.c" m = true
                  /\ matchTopic "a.b.d.c" m = false).
Proof.
  split.
  - intros ts ti ps pi Hp. rewrite matchSegments_eq.
    rewrite (nth_error_in_range _ _ _ Hp), Hp. split; intros H.
    + now rewrite (proj2 (Nat.leb_le _ _) H).
    + now rewrite (proj2 (Nat.leb_gt _ _) H).
  - intros c Hc. exists (compiled "a.+.c").
    rewrite compileMatcher_result by now apply reachable_cache_ok.
    repeat split; reflexivity.
Qed.

Lemma single_wildcard_arity_witness :
  matchSegments ["a"] 1 [literal "a"; single] 1 = false
  /\ matchSegments ["a"; "b"] 1 [literal "a"; single] 1
     = matchSegments ["a"; "b"] (1 + 1) [literal "a"; single] (1 + 1)
  /\ exists m, fst (compileMatcher "a.+.c" (run [Compile "a.+.c"] []))
               = Return m
               /\ matchTopic "a.b.c" m = true
               /\ matchTopic "a.b.d.c" m = false.
Proof.
  destruct single_wildcard_arity as [Hseg Hex]. split; [|split].
  - apply (Hseg ["a"] 1 [literal "a"; single] 1); [reflexivity | simpl; lia].
  - apply (Hseg ["a"; "b"] 1 [literal "a"; single] 1);
      [reflexivity | simpl; lia].
  - apply (Hex (run [Compile "a.+.c"] [])).
    exists [Compile "a.+.c"]. reflexivity.
Defined.

(** The documented examples of the pattern syntax. *)
Example cart_single_examples :
  map (fun t => matchTopic t (compiled "cart.+.add"))
      ["cart.item.add"; "cart.promo.add"; "cart.add";
       "cart.item.detail.add"; "order.item.add"]
  = [true; true; false; false; false].
Proof. reflexivity. Qed.

Example cart_multi_examples :
  map (fun t => matchTopic t (compiled "cart.#"))
      ["cart"; "cart.item"; "cart.item.detail.view"; "user.cart";
       "order.complete"]
  = [true; true; true; false; false].
Proof. reflexivity. Qed.

Example exact_examples :
  map (fun t => matchTopic t (compiled "cart.item.add"))
      ["cart.item.add"; "cart.item.remove"; "cart.item.add.confirm";
       "user.cart.item.add"]
  = [true; false; false; false].
Proof. reflexivity. Qed.

Example star_is_invalid :
  fst (compileMatcher "*.*.update" [])
  = Throw (PatternInvalidCharacters "*.*.update" "*").
Proof. reflexivity. Qed.

Example segment_char_boundaries :
  map JsString.segment_char
      ["a"; "z"; "A"; "Z"; "0"; "9"; "_"; "-"; "`"; "{"; "@"; "["; "/"; ":";
       "."; "+"; "#"; " "]%char
  = [true; true; true; true; true; true; true; true; false; false; false;
     false; false; false; false; false; false; false].
Proof. reflexivity. Qed.

(** ** The bounded cache *)

(** C4. Bounded cache: after any sequence of calls from the empty cache
    the cache holds at most [MAX_CACHE_SIZE] = 1000 entries; and when a new
    valid pattern is compiled on a full cache, the oldest entry alone is
    dropped and the new matcher becomes the youngest entry. *)
Theorem cache_bounded :
  MAX_CACHE_SIZE = 1000
  /\ (forall ops,
        getMatcherCacheSize (run ops JsMap.empty) <= MAX_CACHE_SIZE)
  /\ (forall c p m,
        JsMap.get c p = None -> buildMatcher p = Return m ->
        MAX_CACHE_SIZE <= getMatcherCacheSize c ->
        exists oldest rest,
          c = oldest :: rest
          /\ snd (compileMatcher p c) = rest ++ [(p, m)]).
Proof.
  split; [reflexivity|]. split.
  - intros ops. apply (cache_ok_run ops _ cache_ok_empty).
  - intros c p m Hget Hb Hfull.
    rewrite (compileMatcher_miss p c m Hget Hb). cbn [snd].
    unfold getMatcherCacheSize in Hfull.
    rewrite (proj2 (Nat.leb_le _ _) Hfull).
    destruct c as [|oldest rest];
      [unfold MAX_CACHE_SIZE in Hfull; simpl in Hfull; lia|].
    now exists oldest, rest.
Qed.

Lemma cache_bounded_witness :
  exists oldest rest,
    run (fill 1000) [] = oldest :: rest
    /\ snd (compileMatcher "cart.+.add" (run (fill 1000) []))
       = rest ++ [("cart.+.add", compiled "cart.+.add")].
Proof.
  destruct cache_bounded as (_ & _ & Hevict).
  apply (Hevict (run (fill 1000) []) "cart.+.add" (compiled "cart.+.add")).
  - vm_compute. reflexivity.
  - reflexivity.
  - apply Nat.leb_le. vm_compute. reflexivity.
Defined.

(** C8. Cache idempotence: on any reachable cache, compiling a valid
    pattern twice returns, the second time, the entry the first call left
    in the cache, and both matchers give the same result on every topic. *)
Theorem cache_idempotence (c : Cache) (p : string) :
  reachable c -> valid_pattern p = true ->
  exists m1 m2,
    fst (compileMatcher p c) = Return m1
    /\ JsMap.get (snd (compileMatcher p c)) p = Some m2
    /\ fst (compileMatcher p (snd (compileMatcher p c))) = Return m2
    /\ forall t, matchTopic t m2 = matchTopic t m1.
Proof.
  intros Hc Hv. exists (compiled p), (compiled p).
  assert (Hget : JsMap.get (snd (compileMatcher p c)) p = Some (compiled p)).
  { unfold compileMatcher.
    destruct (JsMap.get c p) as [cached|] eqn:Hhit.
    - cbn [snd]. rewrite Hhit. f_equal.
      apply reachable_cache_ok in Hc as (_ & Hent & _).
      apply get_In, Hent in Hhit.
      rewrite (buildMatcher_valid p Hv) in Hhit. congruence.
    - rewrite (buildMatcher_valid p Hv). cbn [snd]. apply get_set_same. }
  split; [|split; [exact Hget|split; [|reflexivity]]].
  - rewrite compileMatcher_result by now apply reachable_cache_ok.
    now apply buildMatcher_valid.
  - now rewrite (compileMatcher_hit _ _ _ Hget).
Qed.

Lemma cache_idempotence_witness :
  exists m1 m2,
    fst (compileMatcher "cart.#" (run [Compile "a.b"] [])) = Return m1
    /\ JsMap.get (snd (compileMatcher "cart.#" (run [Compile "a.b"] [])))
                 "cart.#" = Some m2
    /\ fst (compileMatcher "cart.#"
              (snd (compileMatcher "cart.#" (run [Compile "a.b"] []))))
       = Return m2
    /\ forall t, matchTopic t m2 = matchTopic t m1.
Proof.
  apply (cache_idempotence (run [Compile "a.b"] []) "cart.#").
  - exists [Compile "a.b"]. reflexivity.
  - reflexivity.
Defined.

(** C10. Cache hit: when the pattern is a key of the cache,
    [compileMatcher] returns the stored matcher and the cache it leaves is
    the cache it found: same entries in the same order, hence same size;
    this holds whatever the pattern is, valid or not. *)
Theorem cache_hit_frame (c : Cache) (p : string) (cached : Matcher) :
  JsMap.get c p = Some cached ->
  fst (compileMatcher p c) = Return cached
  /\ snd (compileMatcher p c) = c
  /\ getMatcherCacheSize (snd (compileMatcher p c)) = getMatcherCacheSize c
  /\ JsMap.keys (snd (compileMatcher p c)) = JsMap.keys c.
Proof.
  intros Hget. rewrite (compileMatcher_hit p c cached Hget).
  repeat split; reflexivity.
Qed.

Lemma cache_hit_frame_witness :
  let c := run [Compile "a.b"; Compile "x.#"; Compile "a.+"] [] in
  fst (compileMatcher "x.#" c) = Return (compiled "x.#")
  /\ snd (compileMatcher "x.#" c) = c
  /\ getMatcherCacheSize (snd (compileMatcher "x.#" c)) = getMatcherCacheSize c
  /\ JsMap.keys (snd (compileMatcher "x.#" c)) = JsMap.keys c.
Proof.
  intros c. apply (cache_hit_frame c "x.#" (compiled "x.#")). reflexivity.
Defined.

(** ** Topics *)

(** C9. Splitting a string on the delimiter and joining the pieces with
    the delimiter gives the string back, for every string. *)
Theorem split_then_join (t : string) : joinTopic (splitTopic t) = t.
Proof. apply join_split. Qed.

Lemma validateSegments_ok (topic : string) (segs : list string) :
  forall i,
    Forall (fun s => JsString.segment_regex_test s = true) segs ->
    validateSegments topic i segs = Return tt.
Proof.
  induction segs as [|s segs IH]; intros i Hall; [reflexivity|].
  inversion Hall as [|? ? Hs Hrest]; subst. simpl.
  destruct (String.eqb_spec s "") as [->|_]; [discriminate Hs|].
  rewrite Hs. now apply IH.
Qed.

Lemma validateSegments_Return (topic : string) (segs : list string) :
  forall i,
    validateSegments topic i segs = Return tt ->
    Forall (fun s => JsString.segment_regex_test s = true) segs.
Proof.
  induction segs as [|s segs IH]; intros i; simpl; [constructor|].
  destruct (s =? ""); [discriminate|].
  destruct (JsString.segment_regex_test s) eqn:Hs; [|discriminate].
  intros H. constructor; [exact Hs | now apply (IH (S i))].
Qed.

Lemma concrete_topic_split (t : string) :
  concrete_topic t
  <-> Forall (fun s => JsString.segment_regex_test s = true) (splitTopic t).
Proof.
  split.
  - intros (segs & Hne & Hall & ->). unfold splitTopic, joinTopic.
    rewrite split_join; [exact Hall | exact Hne |].
    revert Hall. apply Forall_impl. intros s.
    now apply regex_test_excludes.
  - intros Hall. exists (splitTopic t). split; [apply split_not_nil|].
    split; [exact Hall | symmetry; apply join_split].
Qed.

Lemma validatePublishTopic_Return (t : string) :
  validatePublishTopic t = Return tt <-> concrete_topic t.
Proof.
  rewrite concrete_topic_split. unfold validatePublishTopic. split.
  - destruct (t =? ""); [discriminate|].
    destruct (JsString.includes SINGLE_WILDCARD t
              || JsString.includes MULTI_WILDCARD t); [discriminate|].
    apply validateSegments_Return.
  - intros Hall.
    destruct (String.eqb_spec t "") as [->|_];
      [inversion Hall; discriminate|].
    assert (Hno : forall d, JsString.segment_char d = false ->
                            d <> SEGMENT_DELIMITER ->
                            JsString.includes d t = false).
    { intros d Hd Hdel. rewrite <- (join_split SEGMENT_DELIMITER t).
      fold (splitTopic t). fold (joinTopic (splitTopic t)).
      rewrite includes_join by exact Hdel.
      induction Hall as [|s segs Hs _ IH]; [reflexivity|].
      simpl. now rewrite (regex_test_excludes d s Hd Hs). }
    rewrite (Hno SINGLE_WILDCARD), (Hno MULTI_WILDCARD)
      by (reflexivity || discriminate).
    now apply validateSegments_ok.
Qed.

Lemma validatePublishTopic_Throw (t : string) :
  (exists e, validatePublishTopic t = Throw e) <-> ~ concrete_topic t.
Proof.
  rewrite <- validatePublishTopic_Return.
  destruct (validatePublishTopic t) as [[]|e]; split.
  - intros [e He]. discriminate He.
  - intros H. now contradiction H.
  - intros _. discriminate.
  - intros _. now exists e.
Qed.

(** C6. [validatePublishTopic] returns normally exactly on the concrete
    topics (one or more delimiter-joined segments, each matching
    [[A-Za-z0-9_-]+]) and throws on every other string; in particular it
    throws on a topic that contains a wildcard character, that has an
    empty segment, or that has a segment with a character outside the
    class. *)
Theorem validatePublishTopic_spec (t : string) :
  (validatePublishTopic t = Return tt <-> concrete_topic t)
  /\ ((exists e, validatePublishTopic t = Throw e) <-> ~ concrete_topic t)
  /\ (JsString.includes SINGLE_WILDCARD t = true
      \/ JsString.includes MULTI_WILDCARD t = true ->
      exists e, validatePublishTopic t = Throw e)
  /\ (In "" (splitTopic t) -> exists e, validatePublishTopic t = Throw e)
  /\ ((exists s, In s (splitTopic t)
                 /\ JsString.forallb JsString.segment_char s = false) ->
      exists e, validatePublishTopic t = Throw e).
Proof.
  split; [apply validatePublishTopic_Return|].
  split; [apply validatePublishTopic_Throw|].
  assert (Hbad : forall s, In s (splitTopic t) ->
                   JsString.segment_regex_test s = false ->
                   exists e, validatePublishTopic t = Throw e).
  { intros s Hin Hs. apply validatePublishTopic_Throw.
    rewrite concrete_topic_split, Forall_forall. intros Hall.
    specialize (Hall s Hin). congruence. }
  split; [|split].
  - unfold validatePublishTopic. intros Hw.
    destruct (t =? ""); [eauto|].
    destruct Hw as [-> | ->]; [|rewrite orb_true_r]; simpl; eauto.
  - intros Hin. now apply (Hbad "").
  - intros (s & Hin & Hs). apply (Hbad s Hin).
    unfold JsString.segment_regex_test. rewrite Hs. apply andb_false_r.
Qed.

Lemma validatePublishTopic_spec_witness :
  validatePublishTopic "cart.item-1.add_2" = Return tt
  /\ (exists e, validatePublishTopic "cart.+" = Throw e)
  /\ (exists e, validatePublishTopic "cart..add" = Throw e)
  /\ (exists e, validatePublishTopic "cart.item add" = Throw e).
Proof.
  split; [|split; [|split]].
  - apply (validatePublishTopic_spec "cart.item-1.add_2").
    exists ["cart"; "item-1"; "add_2"].
    split; [discriminate | split; [repeat constructor | reflexivity]].
  - destruct (validatePublishTopic_spec "cart.+") as (_ & _ & Hwild & _).
    apply Hwild. left. reflexivity.
  - destruct (validatePublishTopic_spec "cart..add") as (_ & _ & _ & Hempty & _).
    apply Hempty. right. now left.
  - destruct (validatePublishTopic_spec "cart.item add") as (_ & _ & _ & _ & Hchar).
    apply Hchar. exists "item add". split; [right; now left | reflexivity].
Defined.

Lemma existsb_empty (segs : list string) :
  In "" segs -> existsb (fun seg => seg =? "") segs = true.
Proof.
  intros Hin. apply existsb_exists. exists "". now split.
Qed.

Lemma empty_topic_segment : In "" (splitTopic "").
Proof. now left. Qed.

Lemma leading_delimiter_segment (t : string) :
  leading_delimiter t = true -> In "" (splitTopic t).
Proof.
  destruct t as [|c t]; simpl; [discriminate|].
  unfold splitTopic. simpl. intros ->. now left.
Qed.

Lemma trailing_delimiter_segment (t : string) :
  trailing_delimiter t = true ->
  exists piece pieces, splitTopic t = piece :: pieces ++ [""].
Proof.
  unfold splitTopic.
  induction t as [|c t IH]; [discriminate|].
  destruct t as [|d t].
  - simpl. intros ->. now exists "", [].
  - intros Htr. destruct (IH Htr) as (piece & pieces & Hsplit).
    change (JsString.split SEGMENT_DELIMITER (String c (String d t)))
      with (if Ascii.eqb c SEGMENT_DELIMITER
            then EmptyString :: JsString.split SEGMENT_DELIMITER (String d t)
            else match JsString.split SEGMENT_DELIMITER (String d t) with
                 | [] => [String c EmptyString]
                 | x :: xs => String c x :: xs
                 end).
    rewrite Hsplit. destruct (Ascii.eqb c SEGMENT_DELIMITER).
    + now exists "", (piece :: pieces).
    + now exists (String c piece), pieces.
Qed.

Lemma doubled_delimiter_segment (t : string) :
  doubled_delimiter t = true -> In "" (tl (splitTopic t)).
Proof.
  unfold splitTopic.
  induction t as [|c t IH]; [discriminate|].
  destruct t as [|d t]; [discriminate|].
  change (doubled_delimiter (String c (String d t)))
    with ((Ascii.eqb c SEGMENT_DELIMITER && Ascii.eqb d SEGMENT_DELIMITER)
          || doubled_delimiter (String d t)).
  change (JsString.split SEGMENT_DELIMITER (String c (String d t)))
    with (if Ascii.eqb c SEGMENT_DELIMITER
          then EmptyString :: JsString.split SEGMENT_DELIMITER (String d t)
          else match JsString.split SEGMENT_DELIMITER (String d t) with
               | [] => [String c EmptyString]
               | x :: xs => String c x :: xs
               end).
  intros [[Hc Hd]%andb_true_iff | Hrest]%orb_true_iff.
  - rewrite Hc. simpl. rewrite Hd. now left.
  - specialize (IH Hrest).
    destruct (Ascii.eqb c SEGMENT_DELIMITER).
    + destruct (JsString.split SEGMENT_DELIMITER (String d t));
        simpl in *; tauto.
    + destruct (JsString.split SEGMENT_DELIMITER (String d t));
        simpl in *; tauto.
Qed.

(** C7. For every matcher with [hasWildcards] set, [matchTopic] is false on
    any topic whose split has an empty segment, whatever the matcher's
    segments are; the empty topic and the topics with a leading, trailing
    or doubled delimiter are such topics. *)
Theorem empty_segment_never_matches (m : Matcher) (t : string) :
  hasWildcards m = true ->
  In "" (splitTopic t) \/ t = "" \/ leading_delimiter t = true
  \/ trailing_delimiter t = true \/ doubled_delimiter t = true ->
  matchTopic t m = false.
Proof.
  intros Hw Hshape.
  assert (Hin : In "" (splitTopic t)).
  { destruct Hshape as [H|[->|[H|[H|H]]]].
    - exact H.
    - apply empty_topic_segment.
    - now apply leading_delimiter_segment.
    - destruct (trailing_delimiter_segment t H) as (piece & pieces & ->).
      right. apply in_or_app. right. now left.
    - apply doubled_delimiter_segment in H.
      destruct (splitTopic t); simpl in *; tauto. }
  unfold matchTopic. rewrite Hw. cbn [negb].
  now rewrite (existsb_empty _ Hin).
Qed.

Lemma empty_segment_never_matches_witness :
  matchTopic "cart..add" (compiled "cart.#") = false
  /\ matchTopic "" (compiled "#") = false
  /\ matchTopic ".cart" (compiled "+.cart") = false
  /\ matchTopic "cart." (compiled "cart.+") = false
  /\ matchTopic "a.b" (compiled "a.+") = true.
Proof.
  split; [|split; [|split; [|split]]].
  - apply (empty_segment_never_matches (compiled "cart.#") "cart..add");
      [reflexivity | left; right; now left].
  - apply (empty_segment_never_matches (compiled "#") "");
      [reflexivity | right; now left].
  - apply (empty_segment_never_matches (compiled "+.cart") ".cart");
      [reflexivity | right; right; now left].
  - apply (empty_segment_never_matches (compiled "cart.+") "cart.");
      [reflexivity | right; right; right; now left].
  - reflexivity.
Defined.

(** * Further properties *)

(** ** The cache, continued *)

Lemma get_app_other {V : Type} (m : JsMap.t V) (k p : string) (v : V) :
  k <> p -> JsMap.get (m ++ [(p, v)]) k = JsMap.get m k.
Proof.
  intros Hne. induction m as [|[k' v'] m IH]; simpl.
  - destruct (String.eqb_spec p k); [congruence | reflexivity].
  - now rewrite IH.
Qed.

Lemma get_tl_other {V : Type} (m : JsMap.t V) (k : string) :
  JsMap.first_key m <> Some k -> JsMap.get (tl m) k = JsMap.get m k.
Proof.
  destruct m as [|[k' v'] m]; [reflexivity|]. simpl.
  unfold JsMap.first_key. simpl. intros Hne.
  destruct (String.eqb_spec k' k); [congruence | reflexivity].
Qed.

Lemma get_first_key {V : Type} (m : JsMap.t V) (k : string) :
  JsMap.first_key m = Some k -> exists v rest, m = (k, v) :: rest.
Proof.
  destruct m as [|[k' v'] m]; [discriminate|].
  unfold JsMap.first_key. simpl. intros [= ->]. eauto.
Qed.

Lemma compileMatcher_cases (p : string) (c : Cache) :
  (exists cached, JsMap.get c p = Some cached
                  /\ compileMatcher p c = (Return cached, c))
  \/ (exists e, JsMap.get c p = None /\ buildMatcher p = Throw e
                /\ compileMatcher p c = (Throw e, c))
  \/ (exists m, JsMap.get c p = None /\ buildMatcher p = Return m
                /\ compileMatcher p c
                   = (Return m,
                      (if (MAX_CACHE_SIZE <=? JsMap.size c)%nat
                       then tl c else c) ++ [(p, m)])).
Proof.
  destruct (JsMap.get c p) as [cached|] eqn:Hget.
  - left. exists cached. split; [reflexivity | now apply compileMatcher_hit].
  - right. destruct (buildMatcher p) as [m|e] eqn:Hb.
    + right. exists m. repeat split. now apply compileMatcher_miss.
    + left. exists e. repeat split. now apply compileMatcher_throw.
Qed.

Lemma size_compile_le (p : string) (c : Cache) :
  JsMap.size (snd (compileMatcher p c)) <= S (JsMap.size c).
Proof.
  destruct (compileMatcher_cases p c)
    as [(m & _ & ->)|[(e & _ & _ & ->)|(m & _ & _ & ->)]]; cbn [snd]; try lia.
  unfold JsMap.size. rewrite length_app.
  destruct (MAX_CACHE_SIZE <=? length c)%nat; [|simpl; lia].
  destruct c; simpl; lia.
Qed.

(** X1. The cache is transparent: on any two reachable caches the same
    pattern gives the same outcome, the same matcher or the same error. *)
Theorem compile_cache_transparent (c1 c2 : Cache) (p : string) :
  reachable c1 -> reachable c2 ->
  fst (compileMatcher p c1) = fst (compileMatcher p c2).
Proof.
  intros H1 H2.
  rewrite !compileMatcher_result by now apply reachable_cache_ok.
  reflexivity.
Qed.

Lemma compile_cache_transparent_witness :
  fst (compileMatcher "cart.+" (run [Compile "cart.+"; Compile "a.#"] []))
  = fst (compileMatcher "cart.+" (run [Compile "x.y"; Clear] [])).
Proof.
  apply compile_cache_transparent.
  - exists [Compile "cart.+"; Compile "a.#"]. reflexivity.
  - exists [Compile "x.y"; Clear]. reflexivity.
Defined.

(** X2. A call that throws leaves the cache exactly as it found it,
    whatever the cache holds. *)
Theorem compile_throw_frame (c : Cache) (p : string) (e : Error) :
  fst (compileMatcher p c) = Throw e -> snd (compileMatcher p c) = c.
Proof.
  destruct (compileMatcher_cases p c)
    as [(m & _ & ->)|[(e' & _ & _ & ->)|(m & _ & _ & ->)]]; cbn [fst snd];
    [discriminate | reflexivity | discriminate].
Qed.

Lemma compile_throw_frame_witness :
  snd (compileMatcher "a.#.b" (run [Compile "a.b"; Compile "a.#"] []))
  = run [Compile "a.b"; Compile "a.#"] [].
Proof.
  apply (compile_throw_frame _ "a.#.b" (PatternMultiNotAtEnd "a.#.b")).
  reflexivity.
Defined.

Lemma compile_lookup_frame_aux (c : Cache) (p k : string) :
  k <> p ->
  JsMap.size c < MAX_CACHE_SIZE \/ JsMap.first_key c <> Some k ->
  JsMap.get (snd (compileMatcher p c)) k = JsMap.get c k.
Proof.
  intros Hne Hroom.
  destruct (compileMatcher_cases p c)
    as [(m & _ & ->)|[(e & _ & _ & ->)|(m & _ & _ & ->)]]; cbn [snd];
    try reflexivity.
  rewrite get_app_other by exact Hne.
  destruct (Nat.leb_spec MAX_CACHE_SIZE (JsMap.size c)) as [Hfull|_];
    [|reflexivity].
  apply get_tl_other. destruct Hroom as [Hlt|Hk]; [lia | exact Hk].
Qed.

(** X3. A call changes the lookup of no other key, except that of the
    oldest key when the cache is full: for a key [k] other than the
    pattern, if the cache has room or [k] is not its oldest key, looking
    [k] up gives the same answer after the call as before. *)
Theorem compile_lookup_frame (c : Cache) (p k : string) :
  k <> p ->
  getMatcherCacheSize c < MAX_CACHE_SIZE \/ JsMap.first_key c <> Some k ->
  JsMap.get (snd (compileMatcher p c)) k = JsMap.get c k.
Proof. apply compile_lookup_frame_aux. Qed.

Lemma compile_lookup_frame_witness :
  JsMap.get (snd (compileMatcher "cart.#" (run (fill 1000) []))) "01"
  = JsMap.get (run (fill 1000) []) "01".
Proof.
  apply (compile_lookup_frame (run (fill 1000) []) "cart.#" "01").
  - discriminate.
  - right. vm_compute. discriminate.
Defined.

(** X4. Eviction follows insertion order and ignores use: on a full
    reachable cache, compiling the oldest pattern again (a hit) does not
    keep it from being evicted by the next new valid pattern. *)
Theorem eviction_ignores_hits (c : Cache) (k0 p : string) :
  reachable c -> JsMap.first_key c = Some k0 ->
  MAX_CACHE_SIZE <= getMatcherCacheSize c ->
  JsMap.get c p = None -> valid_pattern p = true ->
  JsMap.get (snd (compileMatcher p (snd (compileMatcher k0 c)))) k0 = None.
Proof.
  intros Hc Hk0 Hfull Hp Hv.
  destruct (get_first_key c k0 Hk0) as (m0 & rest & ->).
  assert (Hhit : JsMap.get ((k0, m0) :: rest) k0 = Some m0)
    by (simpl; now rewrite String.eqb_refl).
  rewrite (compileMatcher_hit _ _ _ Hhit). cbn [snd].
  rewrite (compileMatcher_miss _ _ _ Hp (buildMatcher_valid p Hv)). cbn [snd].
  unfold getMatcherCacheSize in Hfull.
  rewrite (proj2 (Nat.leb_le _ _) Hfull). cbn [tl].
  assert (Hne : k0 <> p) by (intros ->; congruence).
  rewrite get_app_other by exact Hne.
  apply get_None_keys.
  apply reachable_cache_ok in Hc as (Hnd & _). now inversion Hnd.
Qed.

Lemma eviction_ignores_hits_witness :
  JsMap.get (snd (compileMatcher "cart.#"
                    (snd (compileMatcher "1" (run (fill 1000) []))))) "1"
  = None.
Proof.
  apply (eviction_ignores_hits (run (fill 1000) []) "1" "cart.#").
  - exists (fill 1000). reflexivity.
  - vm_compute. reflexivity.
  - apply Nat.leb_le. vm_compute. reflexivity.
  - vm_compute. reflexivity.
  - reflexivity.
Defined.

(** X5. What a reachable cache holds: its keys are pairwise distinct, and
    every key is a valid pattern stored with the matcher compiled from it,
    whose [pattern] field is the key. *)
Theorem reachable_cache_entries (c : Cache) :
  reachable c ->
  NoDup (JsMap.keys c)
  /\ forall k m, JsMap.get c k = Some m ->
                 valid_pattern k = true /\ m = compiled k /\ pattern m = k.
Proof.
  intros Hc. apply reachable_cache_ok in Hc as (Hnd & Hent & _).
  split; [exact Hnd|]. intros k m Hget.
  apply get_In, Hent, buildMatcher_Return in Hget as [Hv ->].
  now repeat split.
Qed.

Lemma reachable_cache_entries_witness :
  NoDup (JsMap.keys (run [Compile "a.+"; Compile "a..b"; Compile "a.+"] []))
  /\ forall k m,
       JsMap.get (run [Compile "a.+"; Compile "a..b"; Compile "a.+"] []) k
       = Some m ->
       valid_pattern k = true /\ m = compiled k /\ pattern m = k.
Proof.
  apply reachable_cache_entries.
  exists [Compile "a.+"; Compile "a..b"; Compile "a.+"]. reflexivity.
Defined.

(** X6. Entries are kept while there is room: if the cache size plus the
    number of further [compileMatcher] calls does not exceed the bound, an
    entry present before the calls is still there, unchanged, after them. *)
Theorem entries_survive_until_full (patterns : list string) :
  forall (c : Cache) (k : string) (m : Matcher),
    getMatcherCacheSize c + length patterns <= MAX_CACHE_SIZE ->
    JsMap.get c k = Some m ->
    JsMap.get (run (compile_all patterns) c) k = Some m.
Proof.
  induction patterns as [|p patterns IH]; intros c k m Hsz Hget;
    [exact Hget|].
  unfold getMatcherCacheSize in *. simpl in Hsz.
  change (run (compile_all (p :: patterns)) c)
    with (run (compile_all patterns) (snd (compileMatcher p c))).
  apply IH.
  - pose proof (size_compile_le p c). unfold getMatcherCacheSize. lia.
  - destruct (String.eqb_spec k p) as [->|Hne].
    + now rewrite (compileMatcher_hit _ _ _ Hget).
    + rewrite compile_lookup_frame_aux; [exact Hget | exact Hne | left; lia].
Qed.

Lemma entries_survive_until_full_witness :
  JsMap.get (run (compile_all ["a.+"; "b..c"; "x.y"; "a.#"])
                 (run [Compile "a.#"; Compile "cart.item"] []))
            "a.#"
  = Some (compiled "a.#").
Proof.
  apply (entries_survive_until_full ["a.+"; "b..c"; "x.y"; "a.#"]).
  - apply Nat.leb_le. vm_compute. reflexivity.
  - reflexivity.
Defined.

(** ** Compiled matchers *)

Lemma segment_string_of (s : string) : segment_string (segment_of s) = s.
Proof.
  unfold segment_of.
  destruct (String.eqb_spec s (String MULTI_WILDCARD "")) as [->|_];
    [reflexivity|].
  destruct (String.eqb_spec s (String SINGLE_WILDCARD "")) as [->|_];
    reflexivity.
Qed.

Lemma segment_of_string (seg : MatcherSegment) :
  well_formed_segments [seg] = true -> segment_of (segment_string seg) = seg.
Proof.
  destruct seg as [| |value]; [reflexivity | reflexivity |].
  simpl. rewrite andb_true_r. intros Hv.
  apply regex_test_not_wildcard in Hv. unfold is_wildcard in Hv.
  apply orb_false_iff in Hv as [Hm Hs]. unfold segment_of. now rewrite Hm, Hs.
Qed.

Lemma is_wildcard_segment_of (s : string) :
  is_wildcard_segment (segment_of s) = is_wildcard s.
Proof.
  unfold segment_of, is_wildcard.
  destruct (s =? String MULTI_WILDCARD ""); [reflexivity|].
  destruct (s =? String SINGLE_WILDCARD ""); reflexivity.
Qed.

Lemma well_formed_of_legal (segs : list string) :
  legal_segments segs = true ->
  well_formed_segments (map segment_of segs) = true.
Proof.
  induction segs as [|s rest IH]; [reflexivity|].
  simpl. intros [Hs Hrest]%andb_true_iff. rewrite (IH Hrest), andb_true_r.
  unfold legal_segment in Hs. unfold segment_of.
  destruct (s =? "") eqn:He; [discriminate|]. simpl in Hs.
  destruct (s =? String MULTI_WILDCARD "").
  - destruct rest; [reflexivity | discriminate].
  - destruct (s =? String SINGLE_WILDCARD ""); [reflexivity | exact Hs].
Qed.

Lemma legal_of_well_formed (segs : list MatcherSegment) :
  well_formed_segments segs = true ->
  legal_segments (map segment_string segs) = true.
Proof.
  induction segs as [|seg rest IH]; [reflexivity|].
  simpl. intros [Hs Hrest]%andb_true_iff. rewrite (IH Hrest), andb_true_r.
  destruct seg as [| |value]; simpl.
  - destruct rest; [reflexivity | discriminate].
  - reflexivity.
  - unfold legal_segment.
    pose proof (regex_test_not_wildcard value Hs) as Hw.
    unfold is_wildcard in Hw. apply orb_false_iff in Hw as [-> ->].
    rewrite Hs, orb_true_r, andb_true_r.
    destruct (String.eqb_spec value ""); [subst; discriminate | reflexivity].
Qed.

Lemma well_formed_multi_last (segs : list MatcherSegment) :
  well_formed_segments segs = true ->
  forall i, nth_error segs i = Some multi -> S i = length segs.
Proof.
  induction segs as [|seg rest IH]; intros Hwf [|i]; simpl; try discriminate.
  - intros [= ->]. simpl in Hwf. destruct rest; [reflexivity | discriminate].
  - intros Hi. f_equal. apply IH; [|exact Hi].
    simpl in Hwf. now apply andb_true_iff in Hwf.
Qed.

Lemma well_formed_literal (segs : list MatcherSegment) (value : string) :
  well_formed_segments segs = true -> In (literal value) segs ->
  JsString.segment_regex_test value = true.
Proof.
  induction segs as [|seg rest IH]; intros Hwf; [intros []|].
  simpl in Hwf. apply andb_true_iff in Hwf as [Hseg Hrest].
  intros [->|Hin]; [exact Hseg | now apply IH].
Qed.

Lemma well_formed_dot_free (segs : list MatcherSegment) :
  well_formed_segments segs = true ->
  Forall (fun piece => JsString.includes SEGMENT_DELIMITER piece = false)
         (map segment_string segs).
Proof.
  induction segs as [|seg rest IH]; intros Hwf; [constructor|].
  simpl in Hwf. apply andb_true_iff in Hwf as [Hseg Hrest].
  constructor; [|now apply IH].
  destruct seg as [| |value]; [reflexivity | reflexivity |].
  now apply regex_test_excludes.
Qed.

Lemma existsb_segment_of (segs : list string) :
  existsb is_wildcard_segment (map segment_of segs) = existsb is_wildcard segs.
Proof.
  induction segs as [|s rest IH]; [reflexivity|].
  simpl. now rewrite IH, is_wildcard_segment_of.
Qed.

Lemma well_formed_head (seg : MatcherSegment) (rest : list MatcherSegment) :
  well_formed_segments (seg :: rest) = true ->
  well_formed_segments [seg] = true /\ well_formed_segments rest = true.
Proof.
  simpl. intros [Hseg Hrest]%andb_true_iff. split; [|exact Hrest].
  rewrite andb_true_r. destruct seg; [reflexivity | reflexivity | exact Hseg].
Qed.

Lemma existsb_segment_string (segs : list MatcherSegment) :
  well_formed_segments segs = true ->
  existsb is_wildcard (map segment_string segs)
  = existsb is_wildcard_segment segs.
Proof.
  induction segs as [|seg rest IH]; [reflexivity|].
  intros [Hseg Hrest]%well_formed_head.
  cbn [map existsb]. rewrite (IH Hrest). f_equal.
  rewrite <- is_wildcard_segment_of. now rewrite segment_of_string.
Qed.

Lemma map_segment_of_string (segs : list MatcherSegment) :
  well_formed_segments segs = true ->
  map segment_of (map segment_string segs) = segs.
Proof.
  induction segs as [|seg rest IH]; [reflexivity|].
  intros [Hseg Hrest]%well_formed_head.
  cbn [map]. now rewrite (IH Hrest), segment_of_string.
Qed.

Lemma compileMatcher_Return (c : Cache) (p : string) (m : Matcher) :
  reachable c -> fst (compileMatcher p c) = Return m ->
  valid_pattern p = true /\ m = compiled p.
Proof.
  intros Hc. rewrite compileMatcher_result by now apply reachable_cache_ok.
  apply buildMatcher_Return.
Qed.

(** X7. The shape of every matcher [compileMatcher] returns: its [pattern]
    is the pattern compiled, it has one segment per split piece, a
    multi-wildcard segment occurs only in last position, every literal
    value matches [[A-Za-z0-9_-]+], and [hasWildcards] is set exactly when
    some segment is a wildcard. *)
Theorem compiled_matcher_shape (c : Cache) (p : string) (m : Matcher) :
  reachable c -> fst (compileMatcher p c) = Return m ->
  pattern m = p
  /\ length (segments m) = length (splitTopic p)
  /\ (forall i, nth_error (segments m) i = Some multi ->
                S i = length (segments m))
  /\ (forall value, In (literal value) (segments m) ->
                    JsString.segment_regex_test value = true)
  /\ hasWildcards m = existsb is_wildcard_segment (segments m).
Proof.
  intros Hc Hm. destruct (compileMatcher_Return c p m Hc Hm) as [Hv ->].
  pose proof (well_formed_of_legal _ Hv) as Hwf.
  unfold compiled. cbn [pattern segments hasWildcards].
  split; [reflexivity|]. split; [apply length_map|].
  split; [now apply well_formed_multi_last|].
  split; [intros value; now apply well_formed_literal|].
  symmetry. apply existsb_segment_of.
Qed.

Lemma compiled_matcher_shape_witness :
  let m := compiled "cart.+.#" in
  pattern m = "cart.+.#"
  /\ length (segments m) = length (splitTopic "cart.+.#")
  /\ (forall i, nth_error (segments m) i = Some multi ->
                S i = length (segments m))
  /\ (forall value, In (literal value) (segments m) ->
                    JsString.segment_regex_test value = true)
  /\ hasWildcards m = existsb is_wildcard_segment (segments m).
Proof.
  apply (compiled_matcher_shape (run [Compile "a.b"] []) "cart.+.#").
  - exists [Compile "a.b"]. reflexivity.
  - reflexivity.
Defined.

(** X8. Compilation loses nothing: writing the segments of a returned
    matcher back as text and joining them gives the pattern compiled. *)
Theorem compile_then_render (c : Cache) (p : string) (m : Matcher) :
  reachable c -> fst (compileMatcher p c) = Return m ->
  render (segments m) = p.
Proof.
  intros Hc Hm. destruct (compileMatcher_Return c p m Hc Hm) as [_ ->].
  unfold render, compiled. cbn [segments]. rewrite map_map.
  rewrite (map_ext _ (fun s => s) segment_string_of), map_id.
  apply join_split.
Qed.

Lemma compile_then_render_witness :
  render (segments (compiled "cart.+.item-1.#")) = "cart.+.item-1.#".
Proof.
  apply (compile_then_render (run [Compile "a.b"] []) "cart.+.item-1.#").
  - exists [Compile "a.b"]. reflexivity.
  - reflexivity.
Defined.

(** X9. Every well-formed, non-empty list of compiled segments is what
    [compileMatcher] returns for its rendered text, on any reachable cache:
    the pattern syntax can express each of them. *)
Theorem render_then_compile (c : Cache) (segs : list MatcherSegment) :
  reachable c -> segs <> [] -> well_formed_segments segs = true ->
  fst (compileMatcher (render segs) c)
  = Return (mkMatcher (render segs)
                      (existsb is_wildcard_segment segs) segs).
Proof.
  intros Hc Hne Hwf.
  rewrite compileMatcher_result by now apply reachable_cache_ok.
  assert (Hsplit : splitTopic (render segs) = map segment_string segs).
  { unfold splitTopic, render, joinTopic. apply split_join.
    - destruct segs; [congruence | discriminate].
    - now apply well_formed_dot_free. }
  rewrite buildMatcher_valid
    by (unfold valid_pattern; rewrite Hsplit; now apply legal_of_well_formed).
  unfold compiled. rewrite Hsplit.
  now rewrite existsb_segment_string, map_segment_of_string.
Qed.

Lemma render_then_compile_witness :
  fst (compileMatcher (render [literal "cart"; single; multi])
                      (run [Compile "a.b"] []))
  = Return (mkMatcher (render [literal "cart"; single; multi])
                      (existsb is_wildcard_segment
                               [literal "cart"; single; multi])
                      [literal "cart"; single; multi]).
Proof.
  apply (render_then_compile (run [Compile "a.b"] [])
           [literal "cart"; single; multi]).
  - exists [Compile "a.b"]. reflexivity.
  - discriminate.
  - reflexivity.
Defined.

(** ** Which error, and where *)

Lemma compileSegments_Throw (pattern : string) (rest : list string) :
  forall len i acc hw e,
    len = i + length rest ->
    compileSegments pattern len i rest acc hw = Throw e ->
    exists j s,
      nth_error rest j = Some s
      /\ forallb (legal_segment false) (firstn j rest) = true
      /\ ((e = PatternEmptySegment pattern (i + j) /\ s = "")
          \/ (e = PatternMultiNotAtEnd pattern
              /\ s = String MULTI_WILDCARD "" /\ S j < length rest)
          \/ (e = PatternInvalidCharacters pattern s /\ s <> ""
              /\ is_wildcard s = false
              /\ JsString.segment_regex_test s = false)).
Proof.
  induction rest as [|s rest IH]; intros len i acc hw e Hlen; simpl;
    [discriminate|].
  assert (Hnext : forall acc' hw',
             compileSegments pattern len (S i) rest acc' hw' = Throw e ->
             legal_segment false s = true ->
             exists j s0,
               nth_error (s :: rest) j = Some s0
               /\ forallb (legal_segment false) (firstn j (s :: rest)) = true
               /\ ((e = PatternEmptySegment pattern (i + j) /\ s0 = "")
                   \/ (e = PatternMultiNotAtEnd pattern
                       /\ s0 = String MULTI_WILDCARD ""
                       /\ S j < length (s :: rest))
                   \/ (e = PatternInvalidCharacters pattern s0 /\ s0 <> ""
                       /\ is_wildcard s0 = false
                       /\ JsString.segment_regex_test s0 = false))).
  { intros acc' hw' Hthrow Hs.
    destruct (IH len (S i) acc' hw' e) as (j & s0 & Hj & Hpre & Hcase);
      [simpl in Hlen; lia | exact Hthrow |].
    exists (S j), s0. split; [exact Hj|]. split; [simpl; now rewrite Hs|].
    replace (i + S j) with (S i + j) by lia. simpl length.
    destruct Hcase as [?|[(? & ? & ?)|?]]; [now left | right; left | now right; right].
    repeat split; [assumption | assumption | lia]. }
  unfold legal_segment in Hnext.
  destruct (String.eqb_spec s "") as [->|Hne].
  - intros [= <-]. exists 0, "". rewrite Nat.add_0_r.
    split; [reflexivity|]. split; [reflexivity | now left].
  - destruct (String.eqb_spec s (String MULTI_WILDCARD "")) as [->|Hm].
    + destruct (Nat.eqb_spec i (len - 1)) as [Hlast|Hnot]; simpl.
      * destruct rest; [discriminate | simpl in Hlen; lia].
      * intros [= <-]. exists 0, (String MULTI_WILDCARD "").
        split; [reflexivity|]. split; [reflexivity|]. right; left.
        repeat split. simpl in *. destruct rest; simpl in *; lia.
    + destruct (String.eqb_spec s (String SINGLE_WILDCARD "")) as [->|Hsg].
      * intros H. now apply (Hnext _ _ H).
      * destruct (JsString.segment_regex_test s) eqn:Hre; simpl.
        -- intros H. now apply (Hnext _ _ H).
        -- intros [= <-]. exists 0, s.
           split; [reflexivity|]. split; [reflexivity|]. right; right.
           repeat split; [exact Hne | | exact Hre].
           unfold is_wildcard.
           destruct (String.eqb_spec s (String MULTI_WILDCARD ""));
             [congruence|].
           destruct (String.eqb_spec s (String SINGLE_WILDCARD ""));
             [congruence | reflexivity].
Qed.

(** X10. The error of [compileMatcher] names the first offending segment:
    the empty pattern gives [InvalidTopicPattern]; otherwise the error is
    decided by the first segment that is empty (reported with its
    position), a multi-wildcard before the end, or a literal with an
    invalid character (reported with its text), every segment before it
    being a single wildcard or a valid literal. *)
Theorem compile_error_precise (c : Cache) (p : string) (e : Error) :
  reachable c -> fst (compileMatcher p c) = Throw e ->
  (p = "" /\ e = InvalidTopicPattern p)
  \/ (p <> ""
      /\ exists i s,
          nth_error (splitTopic p) i = Some s
          /\ forallb (legal_segment false) (firstn i (splitTopic p)) = true
          /\ ((e = PatternEmptySegment p i /\ s = "")
              \/ (e = PatternMultiNotAtEnd p
                  /\ s = String MULTI_WILDCARD ""
                  /\ S i < length (splitTopic p))
              \/ (e = PatternInvalidCharacters p s /\ s <> ""
                  /\ is_wildcard s = false
                  /\ JsString.segment_regex_test s = false))).
Proof.
  intros Hc. rewrite compileMatcher_result by now apply reachable_cache_ok.
  unfold buildMatcher.
  destruct (String.eqb_spec p "") as [->|Hne]; [intros [= <-]; now left|].
  cbv zeta.
  destruct (compileSegments p (length (splitTopic p)) 0 (splitTopic p) [] false)
    as [[segs hw]|e'] eqn:Hloop; [discriminate|].
  intros [= ->]. right. split; [exact Hne|].
  apply (compileSegments_Throw p _ _ 0 [] false e eq_refl Hloop).
Qed.

Lemma compile_error_precise_witness :
  ("a.+..#.b" = "" /\ PatternEmptySegment "a.+..#.b" 2
                      = InvalidTopicPattern "a.+..#.b")
  \/ ("a.+..#.b" <> ""
      /\ exists i s,
          nth_error (splitTopic "a.+..#.b") i = Some s
          /\ forallb (legal_segment false) (firstn i (splitTopic "a.+..#.b"))
             = true
          /\ ((PatternEmptySegment "a.+..#.b" 2
               = PatternEmptySegment "a.+..#.b" i /\ s = "")
              \/ (PatternEmptySegment "a.+..#.b" 2
                  = PatternMultiNotAtEnd "a.+..#.b"
                  /\ s = String MULTI_WILDCARD ""
                  /\ S i < length (splitTopic "a.+..#.b"))
              \/ (PatternEmptySegment "a.+..#.b" 2
                  = PatternInvalidCharacters "a.+..#.b" s /\ s <> ""
                  /\ is_wildcard s = false
                  /\ JsString.segment_regex_test s = false))).
Proof.
  apply (compile_error_precise (run [Compile "a.b"] []) "a.+..#.b"
           (PatternEmptySegment "a.+..#.b" 2)).
  - exists [Compile "a.b"]. reflexivity.
  - reflexivity.
Defined.

Lemma validateSegments_Throw (topic : string) (rest : list string) :
  forall i e,
    validateSegments topic i rest = Throw e ->
    exists j s,
      nth_error rest j = Some s
      /\ forallb JsString.segment_regex_test (firstn j rest) = true
      /\ ((e = TopicEmptySegment topic (i + j) /\ s = "")
          \/ (e = TopicInvalidCharacters topic s /\ s <> ""
              /\ JsString.segment_regex_test s = false)).
Proof.
  induction rest as [|s rest IH]; intros i e; simpl; [discriminate|].
  destruct (String.eqb_spec s "") as [->|Hne].
  - intros [= <-]. exists 0, "". rewrite Nat.add_0_r.
    split; [reflexivity|]. split; [reflexivity | now left].
  - destruct (JsString.segment_regex_test s) eqn:Hre; simpl.
    + intros Hthrow.
      destruct (IH (S i) e Hthrow) as (j & s0 & Hj & Hpre & Hcase).
      exists (S j), s0. split; [exact Hj|]. split; [simpl; now rewrite Hre|].
      now replace (i + S j) with (S i + j) by lia.
    + intros [= <-]. exists 0, s.
      split; [reflexivity|]. split; [reflexivity|]. now right.
Qed.

(** X11. The error of [validatePublishTopic], in the order the checks run:
    the empty topic gives [InvalidTopic]; a non-empty topic containing [+]
    or [#] anywhere gives [TopicHasWildcards], even if a segment is empty
    or invalid as well; otherwise the error names the first segment that
    is empty (with its position) or has an invalid character (with its
    text), every segment before it being valid. *)
Theorem validate_error_precise (t : string) (e : Error) :
  validatePublishTopic t = Throw e ->
  (t = "" /\ e = InvalidTopic t)
  \/ (t <> ""
      /\ (JsString.includes SINGLE_WILDCARD t
          || JsString.includes MULTI_WILDCARD t) = true
      /\ e = TopicHasWildcards t)
  \/ (t <> ""
      /\ JsString.includes SINGLE_WILDCARD t = false
      /\ JsString.includes MULTI_WILDCARD t = false
      /\ exists i s,
          nth_error (splitTopic t) i = Some s
          /\ forallb JsString.segment_regex_test (firstn i (splitTopic t))
             = true
          /\ ((e = TopicEmptySegment t i /\ s = "")
              \/ (e = TopicInvalidCharacters t s /\ s <> ""
                  /\ JsString.segment_regex_test s = false))).
Proof.
  unfold validatePublishTopic.
  destruct (String.eqb_spec t "") as [->|Hne]; [intros [= <-]; now left|].
  destruct (JsString.includes SINGLE_WILDCARD t
            || JsString.includes MULTI_WILDCARD t) eqn:Hw.
  - intros [= <-]. right; left. now repeat split.
  - intros Hthrow. right; right. apply orb_false_iff in Hw as [Hs Hm].
    repeat split; try assumption.
    apply (validateSegments_Throw t _ 0 e Hthrow).
Qed.

Lemma validate_error_precise_witness :
  ("cart..a+" = "" /\ TopicHasWildcards "cart..a+" = InvalidTopic "cart..a+")
  \/ ("cart..a+" <> ""
      /\ (JsString.includes SINGLE_WILDCARD "cart..a+"
          || JsString.includes MULTI_WILDCARD "cart..a+") = true
      /\ TopicHasWildcards "cart..a+" = TopicHasWildcards "cart..a+")
  \/ ("cart..a+" <> ""
      /\ JsString.includes SINGLE_WILDCARD "cart..a+" = false
      /\ JsString.includes MULTI_WILDCARD "cart..a+" = false
      /\ exists i s,
          nth_error (splitTopic "cart..a+") i = Some s
          /\ forallb JsString.segment_regex_test
                     (firstn i (splitTopic "cart..a+")) = true
          /\ ((TopicHasWildcards "cart..a+" = TopicEmptySegment "cart..a+" i
               /\ s = "")
              \/ (TopicHasWildcards "cart..a+"
                  = TopicInvalidCharacters "cart..a+" s /\ s <> ""
                  /\ JsString.segment_regex_test s = false))).
Proof.
  apply (validate_error_precise "cart..a+" (TopicHasWildcards "cart..a+")).
  reflexivity.
Defined.

(** X12. The publishable topics are exactly the valid patterns without
    wildcard segments: [validatePublishTopic] returns normally on a string
    if and only if the string is a valid pattern none of whose segments is
    a wildcard. *)
Theorem publish_topic_iff_plain_pattern (t : string) :
  validatePublishTopic t = Return tt
  <-> valid_pattern t = true /\ wildcard_free t = true.
Proof.
  rewrite validatePublishTopic_Return, concrete_topic_split.
  unfold valid_pattern, wildcard_free. rewrite negb_true_iff.
  induction (splitTopic t) as [|s rest IH].
  - split; [now split | constructor].
  - cbn [legal_segments existsb]. split.
    + intros Hall. inversion Hall as [|? ? Hs Hrest]; subst.
      apply IH in Hrest as [Hl Hw]. rewrite Hl, Hw.
      pose proof (regex_test_not_wildcard s Hs) as Hnw. rewrite Hnw.
      split; [|reflexivity]. rewrite andb_true_r.
      unfold legal_segment. unfold is_wildcard in Hnw.
      apply orb_false_iff in Hnw as [-> ->]. rewrite Hs.
      destruct (String.eqb_spec s ""); [subst; discriminate | reflexivity].
    + intros [[Hs Hl]%andb_true_iff [Hnw Hw]%orb_false_iff].
      constructor; [|apply IH; now split].
      unfold legal_segment in Hs. unfold is_wildcard in Hnw.
      apply orb_false_iff in Hnw as [Hm Hsg]. rewrite Hm, Hsg in Hs.
      now apply andb_true_iff in Hs.
Qed.

(** ** What a match means *)

Lemma existsb_empty_iff (segs : list string) :
  existsb (fun seg => seg =? "") segs = true <-> In "" segs.
Proof.
  rewrite existsb_exists. split.
  - intros (s & Hin & Hs). apply String.eqb_eq in Hs. now subst.
  - intros Hin. exists "". now split.
Qed.

Lemma matchTopic_wild (t : string) (m : Matcher) :
  hasWildcards m = true ->
  matchTopic t m = true
  <-> ~ In "" (splitTopic t) /\ Matches (segments m) (splitTopic t).
Proof.
  intros Hw. unfold matchTopic. rewrite Hw. cbn [negb].
  rewrite <- existsb_empty_iff.
  destruct (existsb (fun seg => seg =? "") (splitTopic t)).
  - split; [discriminate | intros [H _]; now contradiction H].
  - rewrite (matchSegments_Matches _ _ _ 0 0 eq_refl). simpl skipn.
    split; [intros H; split; [discriminate | exact H] | now intros [_ H]].
Qed.

(** X13. What a wildcard matcher accepts: [matchTopic] is true exactly when
    the topic has no empty segment and its segments are related to the
    matcher's by [Matches] (a literal takes an equal segment, a single
    wildcard takes any one segment, a multi-wildcard takes the rest). *)
Theorem matchTopic_declarative (t : string) (m : Matcher) :
  hasWildcards m = true ->
  matchTopic t m = true
  <-> ~ In "" (splitTopic t) /\ Matches (segments m) (splitTopic t).
Proof. apply matchTopic_wild. Qed.

Lemma matchTopic_declarative_witness :
  matchTopic "cart.item.add" (compiled "cart.+.#") = true
  <-> ~ In "" (splitTopic "cart.item.add")
      /\ Matches (segments (compiled "cart.+.#")) (splitTopic "cart.item.add").
Proof.
  apply (matchTopic_declarative "cart.item.add" (compiled "cart.+.#")).
  reflexivity.
Defined.

Lemma Matches_literals (segs ts : list string) :
  existsb is_wildcard segs = false ->
  Matches (map segment_of segs) ts <-> ts = segs.
Proof.
  revert ts. induction segs as [|s rest IH]; intros ts; simpl.
  - intros _. split; [now inversion 1 | intros ->; constructor].
  - intros [Hs Hrest]%orb_false_iff.
    assert (Hlit : segment_of s = literal s).
    { unfold is_wildcard in Hs. apply orb_false_iff in Hs as [Hm Hsg].
      unfold segment_of. now rewrite Hm, Hsg. }
    rewrite Hlit. split.
    + intros H. inversion H; subst. f_equal. now apply IH.
    + intros ->. constructor. now apply IH.
Qed.

Lemma splitTopic_inj (t p : string) : splitTopic t = splitTopic p -> t = p.
Proof.
  intros H. rewrite <- (join_split SEGMENT_DELIMITER t).
  rewrite <- (join_split SEGMENT_DELIMITER p).
  unfold splitTopic in H. now rewrite H.
Qed.

(** X14. The fast path is only a shortcut: for a matcher returned for a
    pattern without wildcard segments, walking the segments with
    [matchSegments] gives the same answer as [matchTopic]'s string
    comparison, on every topic. *)
Theorem fast_path_agrees (c : Cache) (p t : string) (m : Matcher) :
  reachable c -> fst (compileMatcher p c) = Return m ->
  hasWildcards m = false ->
  matchSegments (splitTopic t) 0 (segments m) 0 = matchTopic t m.
Proof.
  intros Hc Hm Hw. destruct (compileMatcher_Return c p m Hc Hm) as [_ ->].
  unfold matchTopic. rewrite Hw. cbn [negb pattern segments compiled] in *.
  apply eq_true_iff_eq.
  rewrite (matchSegments_Matches _ _ _ 0 0 eq_refl). simpl skipn.
  rewrite (Matches_literals _ _ Hw), String.eqb_eq.
  split; [apply splitTopic_inj | now intros ->].
Qed.

Lemma fast_path_agrees_witness :
  matchSegments (splitTopic "cart.item.add") 0
                (segments (compiled "cart.item.add")) 0
  = matchTopic "cart.item.add" (compiled "cart.item.add").
Proof.
  apply (fast_path_agrees (run [Compile "a.#"] []) "cart.item.add").
  - exists [Compile "a.#"]. reflexivity.
  - reflexivity.
  - reflexivity.
Defined.

Lemma Matches_length (ps : list MatcherSegment) (ts : list string) :
  Matches ps ts -> well_formed_segments ps = true ->
  (existsb (fun seg => match seg with multi => true | _ => false end) ps = true
   -> length ps - 1 <= length ts)
  /\ (existsb (fun seg => match seg with multi => true | _ => false end) ps
      = false -> length ts = length ps).
Proof.
  induction 1 as [|ps ts|ps t ts HM IH|value ps ts HM IH]; intros Hwf.
  - split; [discriminate | reflexivity].
  - simpl in Hwf. destruct ps; [|discriminate].
    split; [simpl; lia | discriminate].
  - apply well_formed_head in Hwf as [_ Hwf]. destruct (IH Hwf) as [Hm Hn].
    simpl. split; intros H; [specialize (Hm H) | specialize (Hn H)]; lia.
  - apply well_formed_head in Hwf as [_ Hwf]. destruct (IH Hwf) as [Hm Hn].
    simpl. split; intros H; [specialize (Hm H) | specialize (Hn H)]; lia.
Qed.

Lemma existsb_multi_of (segs : list string) :
  existsb (fun seg => match seg with multi => true | _ => false end)
          (map segment_of segs)
  = existsb (fun s => s =? String MULTI_WILDCARD "") segs.
Proof.
  induction segs as [|s rest IH]; [reflexivity|].
  simpl. rewrite IH. f_equal. unfold segment_of.
  destruct (s =? String MULTI_WILDCARD ""); [reflexivity|].
  destruct (s =? String SINGLE_WILDCARD ""); reflexivity.
Qed.

(** X15. Segment counts of a match: if the matcher returned for pattern
    [p] accepts topic [t], then [t] has exactly as many segments as [p]
    when [p] has no [#] segment, and at least as many as [p] has before
    its [#] otherwise. *)
Theorem match_segment_count (c : Cache) (p t : string) (m : Matcher) :
  reachable c -> fst (compileMatcher p c) = Return m ->
  matchTopic t m = true ->
  if existsb (fun s => s =? String MULTI_WILDCARD "") (splitTopic p)
  then length (splitTopic p) - 1 <= length (splitTopic t)
  else length (splitTopic t) = length (splitTopic p).
Proof.
  intros Hc Hm Hmatch.
  destruct (compileMatcher_Return c p m Hc Hm) as [Hv ->].
  destruct (hasWildcards (compiled p)) eqn:Hw.
  - apply (matchTopic_wild t _ Hw) in Hmatch as [_ HM].
    pose proof (Matches_length _ _ HM (well_formed_of_legal _ Hv)) as [Hmu Hno].
    cbn [segments compiled] in *.
    rewrite existsb_multi_of, length_map in *.
    destruct (existsb (fun s => s =? String MULTI_WILDCARD "") (splitTopic p));
      [now apply Hmu | now apply Hno].
  - unfold matchTopic in Hmatch. rewrite Hw in Hmatch.
    cbn [negb pattern compiled] in Hmatch.
    apply String.eqb_eq in Hmatch as ->.
    cbn [hasWildcards compiled] in Hw.
    assert (Hnm : existsb (fun s => s =? String MULTI_WILDCARD "")
                          (splitTopic p) = false).
    { destruct (existsb (fun s => s =? String MULTI_WILDCARD "")
                        (splitTopic p)) eqn:E; [|reflexivity].
      apply existsb_exists in E as (s & Hin & Hs).
      assert (Hex : existsb is_wildcard (splitTopic p) = true)
        by (apply existsb_exists; exists s; split;
            [exact Hin | unfold is_wildcard; now rewrite Hs]).
      congruence. }
    now rewrite Hnm.
Qed.

Lemma match_segment_count_witness :
  if existsb (fun s => s =? String MULTI_WILDCARD "") (splitTopic "cart.+.#")
  then length (splitTopic "cart.+.#") - 1 <= length (splitTopic "cart.item")
  else length (splitTopic "cart.item") = length (splitTopic "cart.+.#").
Proof.
  apply (match_segment_count (run [Compile "a.b"] []) "cart.+.#" "cart.item"
           (compiled "cart.+.#")).
  - exists [Compile "a.b"]. reflexivity.
  - reflexivity.
  - reflexivity.
Defined.

Lemma Matches_literal_at (ps : list MatcherSegment) (ts : list string) :
  Matches ps ts -> well_formed_segments ps = true ->
  forall i value,
    nth_error ps i = Some (literal value) -> nth_error ts i = Some value.
Proof.
  induction 1 as [|ps ts|ps t ts HM IH|v ps ts HM IH]; intros Hwf i value.
  - now destruct i.
  - simpl in Hwf. destruct ps; [|discriminate].
    destruct i as [|[|i]]; discriminate.
  - apply well_formed_head in Hwf as [_ Hwf].
    destruct i as [|i]; [discriminate | now apply IH].
  - apply well_formed_head in Hwf as [_ Hwf].
    destruct i as [|i]; [now intros [= ->] | now apply IH].
Qed.

(** X16. A match fixes the literal positions: if the matcher returned for
    pattern [p] accepts topic [t], every segment of [p] that is not a
    wildcard occurs in [t] at the same position. *)
Theorem match_literal_positions (c : Cache) (p t : string) (m : Matcher) :
  reachable c -> fst (compileMatcher p c) = Return m ->
  matchTopic t m = true ->
  forall i s, nth_error (splitTopic p) i = Some s -> is_wildcard s = false ->
              nth_error (splitTopic t) i = Some s.
Proof.
  intros Hc Hm Hmatch i s Hi Hs.
  destruct (compileMatcher_Return c p m Hc Hm) as [Hv ->].
  destruct (hasWildcards (compiled p)) eqn:Hw.
  - apply (matchTopic_wild t _ Hw) in Hmatch as [_ HM].
    apply (Matches_literal_at _ _ HM (well_formed_of_legal _ Hv)).
    cbn [segments compiled]. rewrite nth_error_map, Hi. simpl. f_equal.
    unfold is_wildcard in Hs. apply orb_false_iff in Hs as [Hmu Hsg].
    unfold segment_of. now rewrite Hmu, Hsg.
  - unfold matchTopic in Hmatch. rewrite Hw in Hmatch.
    cbn [negb pattern compiled] in Hmatch.
    now apply String.eqb_eq in Hmatch as ->.
Qed.

Lemma match_literal_positions_witness :
  nth_error (splitTopic "cart.item.add") 2 = Some "add".
Proof.
  apply (match_literal_positions (run [Compile "a.b"] []) "cart.+.add"
           "cart.item.add" (compiled "cart.+.add")).
  - exists [Compile "a.b"]. reflexivity.
  - reflexivity.
  - reflexivity.
  - reflexivity.
  - reflexivity.
Defined.

Lemma split_app (sep : ascii) (a b : string) :
  JsString.split sep (a ++ String sep b)%string
  = JsString.split sep a ++ JsString.split sep b.
Proof.
  induction a as [|c a IH]; simpl.
  - now rewrite Ascii.eqb_refl.
  - rewrite IH. destruct (Ascii.eqb c sep); [reflexivity|].
    pose proof (split_not_nil sep a) as Hne.
    destruct (JsString.split sep a); [congruence | reflexivity].
Qed.

Lemma Matches_extend (ps : list MatcherSegment) (ts extra : list string) :
  Matches ps ts -> In multi ps -> Matches ps (ts ++ extra).
Proof.
  induction 1 as [|ps ts|ps t ts HM IH|v ps ts HM IH]; intros Hin.
  - destruct Hin.
  - constructor.
  - destruct Hin as [Heq|Hin]; [discriminate|].
    simpl. constructor. now apply IH.
  - destruct Hin as [Heq|Hin]; [discriminate|].
    simpl. constructor. now apply IH.
Qed.

(** X17. A matcher with a multi-wildcard accepts every extension of a
    topic it accepts: if it matches [t], it matches [t], a delimiter and
    [s], for any [s] without empty segments. *)
Theorem multi_match_extends (m : Matcher) (t s : string) :
  hasWildcards m = true -> In multi (segments m) ->
  matchTopic t m = true -> ~ In "" (splitTopic s) ->
  matchTopic (t ++ String SEGMENT_DELIMITER s) m = true.
Proof.
  intros Hw Hmulti Hmatch Hs.
  apply (matchTopic_wild _ _ Hw) in Hmatch as [Ht HM].
  apply (matchTopic_wild _ _ Hw). unfold splitTopic in *. rewrite split_app.
  split; [|now apply Matches_extend].
  intros [H|H]%in_app_or; tauto.
Qed.

Lemma multi_match_extends_witness :
  matchTopic ("cart.item" ++ String SEGMENT_DELIMITER "detail.view")
             (compiled "cart.+.#") = true.
Proof.
  apply (multi_match_extends (compiled "cart.+.#") "cart.item" "detail.view").
  - reflexivity.
  - right; right; now left.
  - reflexivity.
  - simpl. intros [H|[H|[]]]; discriminate.
Defined.

Lemma Matches_replace (pre : list string) :
  forall (ps : list MatcherSegment) (x y : string) (post : list string),
    Matches ps (pre ++ x :: post) ->
    nth_error ps (length pre) = Some single ->
    Matches ps (pre ++ y :: post).
Proof.
  induction pre as [|a pre IH]; intros ps x y post HM Hn; simpl in *.
  - destruct ps as [|seg ps]; [discriminate|]. injection Hn as ->.
    inversion HM; subst. now constructor.
  - inversion HM; subst; simpl in Hn.
    + constructor.
    + constructor. now apply (IH _ x).
    + constructor. now apply (IH _ x).
Qed.

(** X18. A single wildcard does not look at the segment it takes: if a
    wildcard matcher accepts a topic, it accepts every topic that differs
    from it only by another non-empty segment at the position of a single
    wildcard. *)
Theorem single_wildcard_any_segment (m : Matcher) (t t' : string)
    (pre post : list string) (x y : string) :
  hasWildcards m = true ->
  nth_error (segments m) (length pre) = Some single ->
  splitTopic t = pre ++ x :: post -> splitTopic t' = pre ++ y :: post ->
  y <> "" ->
  matchTopic t m = true -> matchTopic t' m = true.
Proof.
  intros Hw Hn Ht Ht' Hy Hmatch.
  apply (matchTopic_wild _ _ Hw) in Hmatch as [Hne HM].
  apply (matchTopic_wild _ _ Hw). rewrite Ht in *. rewrite Ht'. split.
  - intros [H|[H|H]]%in_app_or; [| congruence |];
      apply Hne, in_or_app; [now left | right; now right].
  - now apply (Matches_replace pre _ x).
Qed.

Lemma single_wildcard_any_segment_witness :
  matchTopic "cart.coupon.add" (compiled "cart.+.add") = true.
Proof.
  apply (single_wildcard_any_segment (compiled "cart.+.add")
           "cart.item.add" "cart.coupon.add" ["cart"] ["add"] "item" "coupon");
    try reflexivity.
  discriminate.
Defined.

(** X19. A matched topic has no empty segment: whatever matcher
    [compileMatcher] returned, with or without wildcards, a topic it
    accepts splits into non-empty segments only. *)
Theorem matched_topic_segments_nonempty (c : Cache) (p t : string)
    (m : Matcher) :
  reachable c -> fst (compileMatcher p c) = Return m ->
  matchTopic t m = true -> ~ In "" (splitTopic t).
Proof.
  intros Hc Hm Hmatch.
  destruct (compileMatcher_Return c p m Hc Hm) as [Hv ->].
  destruct (hasWildcards (compiled p)) eqn:Hw.
  - now apply (matchTopic_wild t _ Hw) in Hmatch.
  - unfold matchTopic in Hmatch. rewrite Hw in Hmatch.
    cbn [negb pattern compiled] in Hmatch.
    apply String.eqb_eq in Hmatch as ->.
    now apply legal_segments_sound in Hv.
Qed.

Lemma matched_topic_segments_nonempty_witness :
  ~ In "" (splitTopic "cart.item.add").
Proof.
  apply (matched_topic_segments_nonempty (run [Compile "a.b"] []) "cart.#"
           "cart.item.add" (compiled "cart.#")).
  - exists [Compile "a.b"]. reflexivity.
  - reflexivity.
  - reflexivity.
Defined.

(** ** Splitting and joining, continued *)

(** X20. Joining then splitting gives the segments back, provided there is
    at least one segment and no segment contains the delimiter. *)
Theorem join_then_split (segs : list string) :
  segs <> [] ->
  Forall (fun s => JsString.includes SEGMENT_DELIMITER s = false) segs ->
  splitTopic (joinTopic segs) = segs.
Proof. apply split_join. Qed.

Lemma join_then_split_witness :
  splitTopic (joinTopic ["cart"; ""; "item add"; "#"])
  = ["cart"; ""; "item add"; "#"].
Proof.
  apply (join_then_split ["cart"; ""; "item add"; "#"]).
  - discriminate.
  - repeat constructor.
Defined.

(** X21. [splitTopic] returns one more piece than the string has
    delimiters (so never the empty list), and no piece contains the
    delimiter. *)
Theorem split_pieces (t : string) :
  length (splitTopic t) = S (count_char SEGMENT_DELIMITER t)
  /\ Forall (fun s => JsString.includes SEGMENT_DELIMITER s = false)
            (splitTopic t).
Proof.
  split; [|apply split_pieces_no_sep].
  unfold splitTopic. induction t as [|c t IH]; [reflexivity|].
  simpl. destruct (Ascii.eqb c SEGMENT_DELIMITER); simpl.
  - now rewrite IH.
  - destruct (JsString.split SEGMENT_DELIMITER t); simpl in *; lia.
Qed.

(** ** Clearing *)


(** ** The cache as a window *)

(** X23. With room in the cache nothing is evicted: compiling a valid
    pattern that is not a key of a cache below the bound appends its
    entry, leaves every older entry in place and grows the size by one. *)
Theorem miss_with_room_appends (c : Cache) (p : string) :
  JsMap.get c p = None -> valid_pattern p = true ->
  getMatcherCacheSize c < MAX_CACHE_SIZE ->
  snd (compileMatcher p c) = c ++ [entry p]
  /\ getMatcherCacheSize (snd (compileMatcher p c))
     = S (getMatcherCacheSize c).
Proof.
  intros Hget Hv Hroom. unfold getMatcherCacheSize in *.
  rewrite (compileMatcher_miss _ _ _ Hget (buildMatcher_valid p Hv)).
  cbn [snd]. rewrite (proj2 (Nat.leb_gt _ _) Hroom).
  split; [reflexivity|]. unfold JsMap.size. rewrite length_app. simpl. lia.
Qed.

Lemma miss_with_room_appends_witness :
  snd (compileMatcher "cart.#" (run [Compile "a.b"; Compile "a.+"] []))
  = run [Compile "a.b"; Compile "a.+"] [] ++ [entry "cart.#"]
  /\ getMatcherCacheSize
       (snd (compileMatcher "cart.#" (run [Compile "a.b"; Compile "a.+"] [])))
     = S (getMatcherCacheSize (run [Compile "a.b"; Compile "a.+"] [])).
Proof.
  apply (miss_with_room_appends (run [Compile "a.b"; Compile "a.+"] [])
           "cart.#").
  - reflexivity.
  - reflexivity.
  - apply Nat.ltb_lt. vm_compute. reflexivity.
Defined.

Lemma get_entries_None (l : list string) (p : string) :
  ~ In p l -> JsMap.get (map entry l) p = None.
Proof.
  intros Hin. apply get_None_keys. unfold JsMap.keys.
  rewrite map_map. simpl. now rewrite map_id.
Qed.

Lemma window_step (l : list string) (p : string) :
  ~ In p l -> valid_pattern p = true ->
  snd (compileMatcher p (map entry l))
  = map entry ((if (MAX_CACHE_SIZE <=? length l)%nat then tl l else l)
               ++ [p]).
Proof.
  intros Hin Hv.
  rewrite (compileMatcher_miss _ _ _ (get_entries_None l p Hin)
             (buildMatcher_valid p Hv)).
  cbn [snd]. unfold JsMap.size. rewrite length_map, map_app.
  destruct (MAX_CACHE_SIZE <=? length l)%nat; [|reflexivity].
  now destruct l.
Qed.

Lemma window_run (ps : list string) :
  forall l,
    NoDup (l ++ ps) -> Forall (fun p => valid_pattern p = true) ps ->
    length l <= MAX_CACHE_SIZE ->
    run (compile_all ps) (map entry l)
    = map entry (skipn (length (l ++ ps) - MAX_CACHE_SIZE) (l ++ ps)).
Proof.
  assert (Hpos : 0 < MAX_CACHE_SIZE) by (unfold MAX_CACHE_SIZE; lia).
  induction ps as [|p ps IH]; intros l Hnd Hvalid Hlen.
  - rewrite app_nil_r.
    replace (length l - MAX_CACHE_SIZE) with 0 by lia. reflexivity.
  - inversion Hvalid as [|? ? Hv Hrest]; subst.
    assert (Hin : ~ In p l).
    { intros Hin. apply NoDup_remove_2 in Hnd. apply Hnd.
      apply in_or_app. now left. }
    change (run (compile_all (p :: ps)) (map entry l))
      with (run (compile_all ps) (snd (compileMatcher p (map entry l)))).
    rewrite (window_step l p Hin Hv).
    destruct (Nat.leb_spec MAX_CACHE_SIZE (length l)) as [Hfull|Hroom].
    + destruct l as [|a l0]; [simpl in Hfull; lia|]. cbn [tl].
      simpl in Hlen, Hfull.
      rewrite IH.
      * f_equal. rewrite <- !app_assoc. cbn [app].
        rewrite !length_app. cbn [length]. rewrite length_app. cbn [length].
        replace (S (length l0 + S (length ps)) - MAX_CACHE_SIZE)
          with (S (length l0 + S (length ps) - MAX_CACHE_SIZE)) by lia.
        reflexivity.
      * rewrite <- app_assoc. cbn [app]. cbn [app] in Hnd.
        now inversion Hnd.
      * exact Hrest.
      * rewrite length_app. simpl. lia.
    + rewrite IH.
      * now rewrite <- !app_assoc.
      * now rewrite <- app_assoc.
      * exact Hrest.
      * rewrite length_app. simpl. lia.
Qed.

(** X24. The cache is a window on the most recent patterns: after
    compiling a list of pairwise distinct valid patterns on a fresh module,
    the cache holds the entries of the last [MAX_CACHE_SIZE] of them (all
    of them if there are fewer), in the order they were compiled. *)
Theorem cache_is_recent_window (patterns : list string) :
  NoDup patterns -> Forall (fun p => valid_pattern p = true) patterns ->
  run (compile_all patterns) JsMap.empty
  = map entry (skipn (length patterns - MAX_CACHE_SIZE) patterns).
Proof.
  intros Hnd Hvalid.
  apply (window_run patterns [] Hnd Hvalid). simpl. lia.
Qed.

Lemma cache_is_recent_window_witness :
  run (compile_all ["cart.#"; "a.+.b"; "user.login"]) JsMap.empty
  = map entry (skipn (length ["cart.#"; "a.+.b"; "user.login"]
                      - MAX_CACHE_SIZE)
                     ["cart.#"; "a.+.b"; "user.login"]).
Proof.
  apply (cache_is_recent_window ["cart.#"; "a.+.b"; "user.login"]).
  - repeat constructor; simpl; intuition discriminate.
  - repeat constructor.
Defined.
